(** * SystemRole: pending membership changes and the save path

    A shallow embedding of
    [components/admin_console/system_roles/system_role/system_role.tsx]:
    the component state, the callbacks [addUsersToRole],
    [removeUserFromRole], [updatePermission], and the asynchronous
    [handleSubmit], which talks to the remote [updateUserRoles] action. *)

From Stdlib Require Import ZArith Ascii String.
From stdpp Require Import base list strings gmap.

Local Open Scope string_scope.
Local Open Scope list_scope.
Local Open Scope nat_scope.

(** ** JavaScript built-ins used by the component *)

(** [s.split(' ')]: cut at every space; the empty string gives one empty
    piece, two adjacent spaces give an empty piece between them. *)
Fixpoint split_space (s : string) : list string :=
  match s with
  | EmptyString => [""]
  | String c rest =>
      if decide (c = " "%char) then "" :: split_space rest
      else match split_space rest with
           | piece :: pieces => String c piece :: pieces
           | [] => [String c ""]
           end
  end.

(** [l.join(' ')]. *)
Fixpoint join_space (l : list string) : string :=
  match l with
  | [] => ""
  | [x] => x
  | x :: rest => (x ++ " " ++ join_space rest)%string
  end.

(** [true] when the string contains no space. *)
Fixpoint noSpace (s : string) : bool :=
  match s with
  | EmptyString => true
  | String c rest => if decide (c = " "%char) then false else noSpace rest
  end.

(** lodash [uniq]: scan left to right, keep a value when it is not yet in
    the result, so the first occurrence of each value survives in place. *)
Fixpoint uniq_from (result : list string) (array : list string) : list string :=
  match array with
  | [] => result
  | value :: rest =>
      if decide (value ∈ result) then uniq_from result rest
      else uniq_from (result ++ [value]) rest
  end.

Definition uniq (array : list string) : list string := uniq_from [] array.

(** The property names a plain object inherits from [Object.prototype]:
    reading one of them on any object gives a function or, for
    [__proto__], the prototype itself, never [undefined]. *)
Definition objectPrototypeNames : list string :=
  ["constructor"; "hasOwnProperty"; "isPrototypeOf"; "propertyIsEnumerable";
   "toLocaleString"; "toString"; "valueOf"; "__proto__";
   "__defineGetter__"; "__defineSetter__"; "__lookupGetter__";
   "__lookupSetter__"].

Definition inherited (k : string) : bool :=
  bool_decide (k ∈ objectPrototypeNames).

(** ** Objects used as dictionaries

    [Dictionary<UserProfile>] is a plain object keyed by user id.
    [Object.keys] lists string keys in insertion order (user ids are
    26-character identifiers, never array indices), and that order is the
    order in which [handleSubmit] issues its calls, so the dictionary is an
    association list kept in insertion order. *)
Module Dict.
Section Ops.
Context {V : Type}.

Definition t := list (string * V).

Definition empty : t := [].

(** [d[k]] *)
Fixpoint get (d : t) (k : string) : option V :=
  match d with
  | [] => None
  | (k', v) :: d' => if decide (k' = k) then Some v else get d' k
  end.

(** [d[k]] read as a condition, as in [if (d[k])]: true for an own key,
    whose value is an object, and also for a name every object inherits;
    only then is [d[k]] not [undefined]. *)
Definition truthy (d : t) (k : string) : bool :=
  match get d k with
  | Some _ => true
  | None => inherited k
  end.

(** [d[k] = v]: an existing key keeps its place, a new key goes last. *)
Fixpoint set (d : t) (k : string) (v : V) : t :=
  match d with
  | [] => [(k, v)]
  | (k', v') :: d' =>
      if decide (k' = k) then (k', v) :: d' else (k', v') :: set d' k v
  end.

(** [delete d[k]] *)
Fixpoint delete (d : t) (k : string) : t :=
  match d with
  | [] => []
  | (k', v') :: d' =>
      if decide (k' = k) then delete d' k else (k', v') :: delete d' k
  end.

(** [Object.keys(d)] *)
Definition keys (d : t) : list string := map fst d.

(** The keys of an object are pairwise distinct. *)
Definition wf (d : t) : Prop := NoDup (keys d).
End Ops.
Arguments t : clear implicits.
End Dict.

(** ** Types of the component *)

(** [UserProfile] (mattermost-redux): the fields the component reads. *)
Record UserProfile := { id : string; roles : string }.

(** [Role] (mattermost-redux). *)
Record Role := { name : string; permissions : list string }.

(** The values of [permissionsToUpdate]: ['read' | 'write' | false]. *)
Inductive PermissionValue := PermRead | PermWrite | PermFalse.

(** [ActionResult] (mattermost-redux): a success payload, or an object with
    an [error] that has a [message]. *)
Record ServerError := { message : string }.

Inductive ActionResult :=
| ActionData (data : bool)
| ActionError (error : ServerError).

(** Modelled from the spec: [isError] of [types/actions], which is not part
    of the sources at hand. A result is an error when it is the object
    containing an [error]. *)
Definition isError (result : ActionResult) : bool :=
  match result with
  | ActionError _ => true
  | ActionData _ => false
  end.

(** The only element ever stored in [serverError]:
    [<FormError error={message}/>]. *)
Inductive JSXElement := FormError (error : string).

(** [x == null], [x === null] on a [JSX.Element | null]. *)
Definition isNull {A} (x : option A) : bool :=
  match x with
  | None => true
  | Some _ => false
  end.

(** The component state. [saveKey] counts successful saves from 0; a
    JavaScript number is an exact integer over that whole range. *)
Record State := {
  usersToAdd : Dict.t UserProfile;
  usersToRemove : Dict.t UserProfile;
  permissionsToUpdate : gmap string PermissionValue;
  saving : bool;
  saveNeeded : bool;
  serverError : option JSXElement;
  saveKey : Z;
}.

(** [Partial<State>], the argument of [setState] and [getSaveNeeded]:
    every field may be absent. *)
Record PartialState := {
  usersToAdd' : option (Dict.t UserProfile);
  usersToRemove' : option (Dict.t UserProfile);
  permissionsToUpdate' : option (gmap string PermissionValue);
  saving' : option bool;
  saveNeeded' : option bool;
  serverError' : option (option JSXElement);
  saveKey' : option Z;
}.

(** [{...state, ...nextState}]: fields present in [nextState] win. *)
Definition merge (state : State) (nextState : PartialState) : State :=
  {| usersToAdd := default (usersToAdd state) (usersToAdd' nextState);
     usersToRemove := default (usersToRemove state) (usersToRemove' nextState);
     permissionsToUpdate :=
       default (permissionsToUpdate state) (permissionsToUpdate' nextState);
     saving := default (saving state) (saving' nextState);
     saveNeeded := default (saveNeeded state) (saveNeeded' nextState);
     serverError := default (serverError state) (serverError' nextState);
     saveKey := default (saveKey state) (saveKey' nextState) |}.

(** [this.setState(nextState)] *)
Definition setState (this : State) (nextState : PartialState) : State :=
  merge this nextState.

(** The state set up by the constructor. *)
Definition constructor : State :=
  {| usersToAdd := Dict.empty;
     usersToRemove := Dict.empty;
     saving := false;
     saveNeeded := false;
     serverError := None;
     permissionsToUpdate := ∅;
     saveKey := 0 |}.

(** ** Synchronous callbacks *)

Definition getSaveNeeded (this : State) (nextState : PartialState) : bool :=
  let merged := merge this nextState in
  let usersToAdd := usersToAdd merged in
  let usersToRemove := usersToRemove merged in
  (0 <? length (Dict.keys usersToAdd)) || (0 <? length (Dict.keys usersToRemove)).

(** One turn of the [users.forEach] loop of [addUsersToRole], on the two
    local copies. *)
Definition addUser (maps : Dict.t UserProfile * Dict.t UserProfile)
    (user : UserProfile) : Dict.t UserProfile * Dict.t UserProfile :=
  let '(usersToAdd, usersToRemove) := maps in
  if Dict.truthy usersToRemove (id user)
  then (usersToAdd, Dict.delete usersToRemove (id user))
  else (Dict.set usersToAdd (id user) user, usersToRemove).

Definition addUsersToRole (users : list UserProfile) (this : State) : State :=
  let '(usersToAdd, usersToRemove) :=
    foldl addUser (usersToAdd this, usersToRemove this) users in
  setState this
    {| usersToAdd' := Some usersToAdd;
       usersToRemove' := Some usersToRemove;
       saveNeeded' :=
         Some (getSaveNeeded this
                 {| usersToAdd' := Some usersToAdd;
                    usersToRemove' := Some usersToRemove;
                    permissionsToUpdate' := None; saving' := None;
                    saveNeeded' := None; serverError' := None;
                    saveKey' := None |});
       permissionsToUpdate' := None; saving' := None;
       serverError' := None; saveKey' := None |}.

Definition removeUserFromRole (user : UserProfile) (this : State) : State :=
  let '(usersToAdd, usersToRemove) :=
    if Dict.truthy (usersToAdd this) (id user)
    then (Dict.delete (usersToAdd this) (id user), usersToRemove this)
    else (usersToAdd this, Dict.set (usersToRemove this) (id user) user) in
  setState this
    {| usersToRemove' := Some usersToRemove;
       usersToAdd' := Some usersToAdd;
       saveNeeded' :=
         Some (getSaveNeeded this
                 {| usersToAdd' := Some usersToAdd;
                    usersToRemove' := Some usersToRemove;
                    permissionsToUpdate' := None; saving' := None;
                    saveNeeded' := None; serverError' := None;
                    saveKey' := None |});
       permissionsToUpdate' := None; saving' := None;
       serverError' := None; saveKey' := None |}.

Definition updatePermission (name : string) (value : PermissionValue)
    (this : State) : State :=
  setState this
    {| permissionsToUpdate' := Some (<[name := value]> (permissionsToUpdate this));
       usersToAdd' := None; usersToRemove' := None; saving' := None;
       saveNeeded' := None; serverError' := None; saveKey' := None |}.

(** ** The remote action and the save path *)

(** What a pending [updateUserRoles] call settles to: its result and the
    moment it completes. *)
Record Settled := { completed_at : nat; outcome : ActionResult }.

(** What can be observed of a run of [handleSubmit] from outside. *)
Inductive Event :=
| Issued (userId roles : string)
| Joined (settled : list Settled).

Section Remote.
(** The server behind [props.actions.updateUserRoles]. A batch of calls
    in flight is settled as a whole: [settle sv calls] gives, for the
    call at each position of [calls], what it settles to, and the next
    server state. *)
Variable Server : Type.
Variable settle : Server → list (string * string) → (nat → Settled) * Server.

Record World := { trace : list Event; server : Server }.

Definition M (A : Type) : Type := World → A * World.

Definition ret {A} (a : A) : M A := λ w, (a, w).

Definition bind {A B} (m : M A) (k : A → M B) : M B :=
  λ w, let '(a, w') := m w in k a w'.

Notation "x <~ m ;; k" := (bind m (λ x, k))
  (at level 100, m at next level, right associativity).

(** [Promise<ActionResult>] as returned by [updateUserRoles]. *)
Record Promise := { request : string * string }.

(** [updateUserRoles(userId, roles)]: the request leaves at once, the
    result is only known once the promise is awaited. The promise resolves
    with an [ActionResult] also when the server refuses the update. *)
Definition updateUserRoles (userId roles : string) : M Promise :=
  λ w, ({| request := (userId, roles) |},
        {| trace := (trace w ++ [Issued userId roles])%list; server := server w |}).

(** [await Promise.all(promises)]: waits for every promise and yields the
    results in the order of [promises], whatever the order of
    completion. *)
Definition Promise_all (promises : list Promise) : M (list ActionResult) :=
  λ w, let '(at_index, sv) := settle (server w) (map request promises) in
       let settled := map at_index (seq 0 (length promises)) in
       (map outcome settled,
        {| trace := (trace w ++ [Joined settled])%list; server := sv |}).

(** What a batch of requests settles to, in the order of the requests,
    and the server state afterwards. *)
Definition settleBatch (sv : Server) (requests : list (string * string))
    : list Settled * Server :=
  (map (settle sv requests).1 (seq 0 (length requests)), (settle sv requests).2).

(** [l.forEach(body)] where [body] pushes onto a local array. *)
Fixpoint forEach {A B} (l : list A) (body : A → list B → M (list B))
    (array : list B) : M (list B) :=
  match l with
  | [] => ret array
  | x :: rest => array' <~ body x array ;; forEach rest body array'
  end.

(** The role list sent for a user who leaves the role:
    [uniq(user.roles.split(' ').filter((r) => r !== role.name))]. *)
Definition rolesWithout (role : Role) (user : UserProfile) : list string :=
  uniq (filter (λ r, r ≠ name role) (split_space (roles user))).

(** The role list sent for a user who joins the role:
    [uniq([...user.roles.split(' '), role.name])]. *)
Definition rolesWith (role : Role) (user : UserProfile) : list string :=
  uniq (split_space (roles user) ++ [name role]).

(** [result.find(isError)] turned into the error element when there is
    one; otherwise [serverError] stays as it was. *)
Definition errorOf (result : list ActionResult) (serverError : option JSXElement)
    : option JSXElement :=
  match List.find isError result with
  | Some (ActionError error) => Some (FormError (message error))
  | _ => serverError
  end.

(** [handleSubmit]. [role] is [props.role]. A key listed by
    [Object.keys] always has a value, so the [None] branches of the two
    loops are never taken (see [Dict_get_key]). The first [setState]
    touches neither pending dictionary nor [saveKey], so it does not matter
    whether the later reads of [this.state] see it already. *)
Definition handleSubmit (role : Role) (this : State) : M State :=
  let this := setState this
    {| saving' := Some true; saveNeeded' := Some false;
       usersToAdd' := None; usersToRemove' := None;
       permissionsToUpdate' := None; serverError' := None;
       saveKey' := None |} in
  let usersToRemove := usersToRemove this in
  let usersToAdd := usersToAdd this in
  let userIdsToRemove := Dict.keys usersToRemove in
  let serverError : option JSXElement := None in
  serverError <~
    (if (0 <? length userIdsToRemove)%nat then
       removeUserPromises <~
         forEach userIdsToRemove (λ userId removeUserPromises,
           match Dict.get usersToRemove userId with
           | Some user =>
               let updatedRoles := join_space (rolesWithout role user) in
               promise <~ updateUserRoles userId updatedRoles ;;
               ret (removeUserPromises ++ [promise])%list
           | None => ret removeUserPromises
           end) [] ;;
       result <~ Promise_all removeUserPromises ;;
       ret (errorOf result serverError)
     else ret serverError) ;;
  let userIdsToAdd := Dict.keys usersToAdd in
  serverError <~
    (if (0 <? length userIdsToAdd)%nat && isNull serverError then
       addUserPromises <~
         forEach userIdsToAdd (λ userId addUserPromises,
           match Dict.get usersToAdd userId with
           | Some user =>
               let updatedRoles := join_space (rolesWith role user) in
               promise <~ updateUserRoles userId updatedRoles ;;
               ret (addUserPromises ++ [promise])%list
           | None => ret addUserPromises
           end) [] ;;
       result <~ Promise_all addUserPromises ;;
       ret (errorOf result serverError)
     else ret serverError) ;;
  let saveKey := saveKey this in
  let saveKey := if isNull serverError then (saveKey + 1)%Z else saveKey in
  ret (setState this
         {| saveNeeded' := Some (negb (isNull serverError));
            saving' := Some false;
            serverError' := Some serverError;
            usersToAdd' := Some Dict.empty;
            usersToRemove' := Some Dict.empty;
            saveKey' := Some saveKey;
            permissionsToUpdate' := None |}).
End Remote.

Arguments trace {Server} _.
Arguments server {Server} _.
Arguments Build_World {Server} _ _.
Arguments ret {Server A} _ _.
Arguments bind {Server A B} _ _ _.
Arguments updateUserRoles {Server} _ _ _.
Arguments forEach {Server A B} _ _ _ _.

(** ** Reading a run *)

(** The requests one loop of [handleSubmit] issues for dictionary [d], in
    order, when [updatedRoles] computes the role string of a user. *)
Definition requestsAt (updatedRoles : UserProfile → string)
    (d : Dict.t UserProfile) (userIds : list string) : list (string * string) :=
  flat_map (λ userId,
    match Dict.get d userId with
    | Some user => [(userId, updatedRoles user)]
    | None => []
    end) userIds.

Definition removeRequests (role : Role) (this : State) : list (string * string) :=
  requestsAt (λ user, join_space (rolesWithout role user))
    (usersToRemove this) (Dict.keys (usersToRemove this)).

Definition addRequests (role : Role) (this : State) : list (string * string) :=
  requestsAt (λ user, join_space (rolesWith role user))
    (usersToAdd this) (Dict.keys (usersToAdd this)).

Definition issue (requests : list (string * string)) : list Event :=
  map (λ r, Issued r.1 r.2) requests.

(** The events of one phase: nothing when there is no request, else all
    requests and then the join. *)
Definition phaseEvents (requests : list (string * string))
    (settled : list Settled) : list Event :=
  match requests with
  | [] => []
  | _ => issue requests ++ [Joined settled]
  end.

(** The requests issued along a trace, in order. *)
Definition calls (events : list Event) : list (string * string) :=
  flat_map (λ e, match e with Issued u r => [(u, r)] | Joined _ => [] end) events.

(** Everything the awaited calls settled to along a trace, batch after
    batch, each batch in the order its calls were issued. *)
Definition delivered (events : list Event) : list Settled :=
  flat_map (λ e, match e with Issued _ _ => [] | Joined l => l end) events.

Definition failed (s : Settled) : bool := isError (outcome s).

(** The element shown for a list of results read from the front. *)
Definition surfaced (settled : list Settled) : option JSXElement :=
  errorOf (map outcome settled) None.

(** Completion order: the settled calls sorted by completion time (stable
    insertion sort), and the first error met in that order. *)
Fixpoint insertByCompletion (s : Settled) (l : list Settled) : list Settled :=
  match l with
  | [] => [s]
  | s' :: l' =>
      if (completed_at s <? completed_at s')%nat then s :: s' :: l'
      else s' :: insertByCompletion s l'
  end.

Definition byCompletion (l : list Settled) : list Settled :=
  foldr insertByCompletion [] l.

Definition surfacedByCompletion (settled : list Settled) : option JSXElement :=
  surfaced (byCompletion settled).

(** Among the answers to the first [n] requests of a batch, the one to
    request [i] is the first error. *)
Definition firstFailureAt (answer : nat → Settled) (n i : nat)
    (error : ServerError) : Prop :=
  i < n ∧ outcome (answer i) = ActionError error ∧
  ∀ j, j < i → failed (answer j) = false.

(** None of the answers to the first [n] requests of a batch is an error. *)
Definition noFailure (answer : nat → Settled) (n : nat) : Prop :=
  ∀ j, j < n → failed (answer j) = false.

(** [true] when the dictionary has at least one key. *)
Definition nonEmpty {V} (d : Dict.t V) : bool := (0 <? length (Dict.keys d))%nat.

(** Save-needed agrees with the pending dictionaries. *)
Definition saveNeededAgrees (s : State) : Prop :=
  saveNeeded s = true ↔ usersToAdd s ≠ [] ∨ usersToRemove s ≠ [].

(** The same state with another [permissionsToUpdate]. *)
Definition withPermissions (p : gmap string PermissionValue) (s : State) : State :=
  {| usersToAdd := usersToAdd s;
     usersToRemove := usersToRemove s;
     permissionsToUpdate := p;
     saving := saving s;
     saveNeeded := saveNeeded s;
     serverError := serverError s;
     saveKey := saveKey s |}.

(** The same state with the two pending dictionaries exchanged. *)
Definition swapPending (s : State) : State :=
  {| usersToAdd := usersToRemove s;
     usersToRemove := usersToAdd s;
     permissionsToUpdate := permissionsToUpdate s;
     saving := saving s;
     saveNeeded := saveNeeded s;
     serverError := serverError s;
     saveKey := saveKey s |}.

(** States the component can be in after any sequence of its operations;
    a submit may run against any server. *)
Inductive reachable (role : Role) : State → Prop :=
| reach_constructor : reachable role constructor
| reach_addUsers users s :
    reachable role s → reachable role (addUsersToRole users s)
| reach_removeUser user s :
    reachable role s → reachable role (removeUserFromRole user s)
| reach_updatePermission name value s :
    reachable role s → reachable role (updatePermission name value s)
| reach_submit (Server : Type) settle (w : World Server) s :
    reachable role s → reachable role (handleSubmit Server settle role s w).1.

(** A run of [handleSubmit] observed from an empty trace. *)
Definition fresh {Server} (sv : Server) : World Server :=
  {| trace := []; server := sv |}.

(** ** Statements read off the specification *)

(** What [addUsersToRole] is said to do with a list of users: a user with a
    pending removal loses it and gets no pending addition, any other user
    becomes a pending addition, and no other entry changes. *)
Definition addUsersCancelsOrAdds (users : list UserProfile) (this : State) : Prop :=
  let next := addUsersToRole users this in
  (∀ user, user ∈ users →
     match Dict.get (usersToRemove this) (id user) with
     | Some _ =>
         Dict.get (usersToRemove next) (id user) = None ∧
         Dict.get (usersToAdd next) (id user) = Dict.get (usersToAdd this) (id user)
     | None =>
         Dict.get (usersToAdd next) (id user) = Some user ∧
         Dict.get (usersToRemove next) (id user) = None
     end) ∧
  (∀ userId, userId ∉ map id users →
     Dict.get (usersToAdd next) userId = Dict.get (usersToAdd this) userId ∧
     Dict.get (usersToRemove next) userId = Dict.get (usersToRemove this) userId).

(** What [removeUserFromRole] is said to do with a user: a pending addition
    of the user is cancelled and no pending removal is created, otherwise
    the user becomes a pending removal, and no other entry changes. *)
Definition removeUserCancelsOrRemoves (user : UserProfile) (this : State) : Prop :=
  let next := removeUserFromRole user this in
  match Dict.get (usersToAdd this) (id user) with
  | Some _ =>
      Dict.get (usersToAdd next) (id user) = None ∧
      Dict.get (usersToRemove next) (id user) =
        Dict.get (usersToRemove this) (id user)
  | None =>
      Dict.get (usersToRemove next) (id user) = Some user ∧
      Dict.get (usersToAdd next) (id user) = None
  end ∧
  (∀ userId, userId ≠ id user →
     Dict.get (usersToAdd next) userId = Dict.get (usersToAdd this) userId ∧
     Dict.get (usersToRemove next) userId = Dict.get (usersToRemove this) userId).

(** What is said of the role lists that are sent: read as a list of roles
    separated by spaces, no request carries a role twice. *)
Definition sentRolesDuplicateFree {Server} settle (role : Role) (this : State)
    (sv : Server) : Prop :=
  let run := handleSubmit Server settle role this (fresh sv) in
  ∀ userId sent, (userId, sent) ∈ calls (trace run.2) → NoDup (split_space sent).

(** What a failed save is said to leave behind. *)
Definition pendingKeptOnError {Server} settle (role : Role) (this : State)
    (sv : Server) : Prop :=
  let run := handleSubmit Server settle role this (fresh sv) in
  existsb failed (delivered (trace run.2)) = true →
  usersToAdd run.1 = usersToAdd this ∧
  usersToRemove run.1 = usersToRemove this ∧
  saveNeeded run.1 = true.

(** The error said to be shown when several calls fail: the first one in
    completion order. *)
Definition firstCompletedErrorShown {Server} settle (role : Role) (this : State)
    (sv : Server) : Prop :=
  let run := handleSubmit Server settle role this (fresh sv) in
  (2 ≤ length (List.filter failed (delivered (trace run.2))))%nat →
  serverError run.1 = surfacedByCompletion (delivered (trace run.2)).

(** ** Sample data *)
Module Sample.
Definition manager : Role :=
  {| name := "system_manager"; permissions := ["sysconsole_read_about"] |}.

Definition ann : UserProfile :=
  {| id := "u1"; roles := "system_user system_manager system_user" |}.
Definition bob : UserProfile := {| id := "u2"; roles := "system_user" |}.
Definition cyd : UserProfile := {| id := "u3"; roles := "system_manager" |}.

(** Ann is to be removed, Bob and Cyd are to be added. *)
Definition oneOutTwoIn : State :=
  addUsersToRole [bob; cyd] (removeUserFromRole ann constructor).

(** Bob and Cyd are to be added. *)
Definition twoIn : State := addUsersToRole [bob; cyd] constructor.

(** Ann is to be removed. *)
Definition oneOut : State := removeUserFromRole ann constructor.

(** Bob again, under the same id, with another role string. *)
Definition bobLater : UserProfile :=
  {| id := "u2"; roles := "system_user system_read_only_admin" |}.

(** A user whose id is a name every object inherits. *)
Definition tom : UserProfile := {| id := "toString"; roles := "system_user" |}.

(** A role whose name has a space in it, and a user who has the role named
    by its first word, as a pending addition. *)
Definition spaced : Role := {| name := "a b"; permissions := [] |}.
Definition dan : UserProfile := {| id := "u4"; roles := "a" |}.
Definition danIn : State := addUsersToRole [dan] constructor.

(** A server that accepts every call. *)
Definition accept (sv : unit) (requests : list (string * string))
    : (nat → Settled) * unit :=
  (λ i, {| completed_at := i; outcome := ActionData true |}, sv).

(** A server that rejects every call, naming the user in the message,
    and answers the calls of a batch last to first. *)
Definition rejectBackwards (sv : unit) (requests : list (string * string))
    : (nat → Settled) * unit :=
  (λ i, {| completed_at := (length requests - i)%nat;
           outcome :=
             ActionError
               {| message := ("cannot update " ++ (nth i requests ("", "")).1)%string |} |},
   sv).
End Sample.

(** ** Rendering *)

(** [Props] without the [actions], which are the remote above. *)
Module Props.
Record t := { role : Role; isDisabled : option bool }.
End Props.

(** [true] when every character of the string is an ASCII character. *)
Fixpoint isAscii (s : string) : bool :=
  match s with
  | EmptyString => true
  | String c rest => (nat_of_ascii c <? 128) && isAscii rest
  end.

(** [c.toUpperCase()] for an ASCII character: the letters [a] to [z] move
    to [A] to [Z], every other character stays. *)
Definition toUpperCase (c : ascii) : ascii :=
  if (97 <=? nat_of_ascii c) && (nat_of_ascii c <=? 122)
  then ascii_of_nat (nat_of_ascii c - 32)
  else c.

(** [s.split('')]: one string per character, none for the empty string. *)
Fixpoint split_chars (s : string) : list string :=
  match s with
  | EmptyString => []
  | String c rest => String c "" :: split_chars rest
  end.

(** [(r) => r.charAt(0).toUpperCase() + r.slice(1)] *)
Definition capitalize (r : string) : string :=
  match r with
  | EmptyString => ""
  | String c rest => String (toUpperCase c) rest
  end.

(** [defaultName] of [render], for a role name made of ASCII characters:
    [role.name.split('').map(...).join(' ')]. *)
Definition defaultName (role : Role) : string :=
  join_space (map capitalize (split_chars (name role))).

(** The props [render] hands to the three children; the callback props are
    the methods of the component themselves. *)
Module SystemRolePermissions.
Record Props := {
  role : Role;
  permissionsToUpdate : gmap string PermissionValue;
}.
End SystemRolePermissions.

Module SystemRoleUsers.
Record Props := {
  key : Z;
  roleName : string;
  usersToAdd : Dict.t UserProfile;
  usersToRemove : Dict.t UserProfile;
  readOnly : option bool;
}.
End SystemRoleUsers.

Module SaveChangesPanel.
Record Props := {
  saving : bool;
  cancelLink : string;
  saveNeeded : bool;
  serverError : option JSXElement;
  isDisabled : option bool;
}.
End SaveChangesPanel.

(** What [render] returns: the back link, the title message and the three
    children. *)
Record Rendered := {
  backLink : string;
  titleId : string;
  titleDefaultMessage : string;
  permissionsPanel : SystemRolePermissions.Props;
  usersPanel : SystemRoleUsers.Props;
  savePanel : SaveChangesPanel.Props;
}.

Definition render (props : Props.t) (this : State) : Rendered :=
  let role := Props.role props in
  let isDisabled := Props.isDisabled props in
  {| backLink := "/admin_console/user_management/system_roles";
     titleId := ("admin.permissions.roles." ++ name role ++ ".name")%string;
     titleDefaultMessage := defaultName role;
     permissionsPanel :=
       {| SystemRolePermissions.role := role;
          SystemRolePermissions.permissionsToUpdate := permissionsToUpdate this |};
     usersPanel :=
       {| SystemRoleUsers.key := saveKey this;
          SystemRoleUsers.roleName := name role;
          SystemRoleUsers.usersToAdd := usersToAdd this;
          SystemRoleUsers.usersToRemove := usersToRemove this;
          SystemRoleUsers.readOnly := isDisabled |};
     savePanel :=
       {| SaveChangesPanel.saving := saving this;
          SaveChangesPanel.cancelLink := "/admin_console/user_management/system_roles";
          SaveChangesPanel.saveNeeded := saveNeeded this;
          SaveChangesPanel.serverError := serverError this;
          SaveChangesPanel.isDisabled := isDisabled |} |}.

(** ** Histories *)

(** [history role n s]: [s] is reached from the constructor by the
    operations of the component, and [n] of the runs of [handleSubmit] along
    the way had no failed call. *)
Inductive history (role : Role) : nat → State → Prop :=
| history_constructor : history role 0 constructor
| history_addUsers n users s :
    history role n s → history role n (addUsersToRole users s)
| history_removeUser n user s :
    history role n s → history role n (removeUserFromRole user s)
| history_updatePermission n name value s :
    history role n s → history role n (updatePermission name value s)
| history_submit n (Server : Type) settle (sv : Server) s :
    history role n s →
    history role
      (if existsb failed
            (delivered (trace (handleSubmit Server settle role s (fresh sv)).2))
       then n else S n)
      (handleSubmit Server settle role s (fresh sv)).1.

(** A server like [Sample.accept] that answers the calls of a batch last to
    first. *)
Definition acceptBackwards (sv : unit) (requests : list (string * string))
    : (nat → Settled) * unit :=
  (λ i, {| completed_at := length requests - i; outcome := ActionData true |}, sv).

(** * Properties *)

(** ** Dictionaries *)
Section DictFacts.
Context {V : Type}.
Implicit Types (d : Dict.t V) (k : string) (v : V).

Lemma Dict_get_set_eq d k v : Dict.get (Dict.set d k v) k = Some v.
Proof.
  induction d as [|[k' v'] d IH]; simpl.
  - by rewrite decide_True.
  - destruct (decide (k' = k)) as [->|Hne]; simpl.
    + by rewrite decide_True.
    + by rewrite decide_False.
Qed.

Lemma Dict_get_set_ne d k k' v :
  k ≠ k' → Dict.get (Dict.set d k v) k' = Dict.get d k'.
Proof.
  intros Hne. induction d as [|[k0 v0] d IH]; simpl.
  - by rewrite decide_False.
  - destruct (decide (k0 = k)) as [->|Hk]; simpl.
    + by rewrite !decide_False.
    + by rewrite IH.
Qed.

Lemma Dict_get_delete_eq d k : Dict.get (Dict.delete d k) k = None.
Proof.
  induction d as [|[k' v'] d IH]; simpl; [done|].
  destruct (decide (k' = k)) as [->|Hne]; simpl; [done|].
  by rewrite decide_False.
Qed.

Lemma Dict_get_delete_ne d k k' :
  k ≠ k' → Dict.get (Dict.delete d k) k' = Dict.get d k'.
Proof.
  intros Hne. induction d as [|[k0 v0] d IH]; simpl; [done|].
  destruct (decide (k0 = k)) as [->|Hk]; simpl.
  - by rewrite decide_False.
  - by rewrite IH.
Qed.

(** A key listed by [Object.keys] has a value. *)
Lemma Dict_get_key d k : k ∈ Dict.keys d → is_Some (Dict.get d k).
Proof.
  induction d as [|[k' v'] d IH]; simpl.
  - by intros ?%elem_of_nil.
  - intros [->|Hin]%elem_of_cons.
    + rewrite decide_True; eauto.
    + destruct (decide (k' = k)); eauto.
Qed.

Lemma Dict_get_None d k : Dict.get d k = None ↔ k ∉ Dict.keys d.
Proof.
  split.
  - intros Hget Hin. apply Dict_get_key in Hin as [v Hv]. congruence.
  - induction d as [|[k' v'] d IH]; simpl; [done|].
    intros Hnin. apply not_elem_of_cons in Hnin as [Hne Hnin].
    rewrite decide_False; auto.
Qed.

Lemma Dict_keys_delete d k :
  Dict.keys (Dict.delete d k) = filter (λ k', k' ≠ k) (Dict.keys d).
Proof.
  induction d as [|[k' v'] d IH]; simpl; [done|].
  rewrite filter_cons. simpl.
  destruct (decide (k' = k)) as [->|Hne].
  - rewrite decide_False; [done|]. intros H. by apply H.
  - rewrite decide_True; [|done]. simpl. by rewrite IH.
Qed.

Lemma Dict_keys_set d k v :
  Dict.keys (Dict.set d k v) =
    if decide (k ∈ Dict.keys d) then Dict.keys d else Dict.keys d ++ [k].
Proof.
  induction d as [|[k' v'] d IH].
  - case_decide as Hin; [by apply elem_of_nil in Hin|done].
  - cbn [Dict.set]. destruct (decide (k' = k)) as [->|Hne].
    + clear IH. case_decide as Hin; [reflexivity|].
      exfalso. apply Hin, elem_of_cons; auto.
    + change (Dict.keys ((k', v') :: Dict.set d k v))
        with (k' :: Dict.keys (Dict.set d k v)).
      change (Dict.keys ((k', v') :: d)) with (k' :: Dict.keys d).
      rewrite IH. destruct (decide (k ∈ Dict.keys d)) as [Hin|Hnin].
      * rewrite decide_True; [done|]. apply elem_of_cons; auto.
      * rewrite decide_False; [done|].
        intros [?|?]%elem_of_cons; congruence.
Qed.

(** Keys stay pairwise distinct under assignment and deletion. *)
Lemma Dict_wf_set d k v : Dict.wf d → Dict.wf (Dict.set d k v).
Proof.
  unfold Dict.wf. intros Hwf. rewrite Dict_keys_set.
  destruct (decide (k ∈ Dict.keys d)); [done|].
  apply NoDup_app. split_and!; [done| |apply NoDup_singleton].
  intros x Hx ->%list_elem_of_singleton. done.
Qed.

Lemma Dict_wf_delete d k : Dict.wf d → Dict.wf (Dict.delete d k).
Proof.
  unfold Dict.wf. intros Hwf. rewrite Dict_keys_delete. by apply NoDup_filter.
Qed.
End DictFacts.

(** ** Splitting, joining and deduplicating role lists *)

Lemma split_space_not_nil s : split_space s ≠ [].
Proof.
  destruct s as [|c s]; simpl; [done|].
  destruct (decide (c = " "%char)); [done|].
  by destruct (split_space s).
Qed.

(** No piece of a split contains a space. *)
Lemma split_space_noSpace s : Forall (λ piece, noSpace piece = true) (split_space s).
Proof.
  induction s as [|c s IH]; simpl.
  - by constructor.
  - destruct (decide (c = " "%char)) as [->|Hc].
    + by constructor.
    + destruct (split_space s) as [|piece pieces]; simpl.
      * constructor; [|done]. simpl. by rewrite decide_False.
      * inversion IH; subst. constructor; [|done].
        simpl. by rewrite decide_False.
Qed.

(** Joining the pieces gives the string back. *)
Lemma join_split_space s : join_space (split_space s) = s.
Proof.
  induction s as [|c s IH]; simpl; [done|].
  destruct (decide (c = " "%char)) as [->|Hc].
  - pose proof (split_space_not_nil s) as Hne.
    destruct (split_space s) as [|piece pieces]; [done|].
    simpl in *. by rewrite IH.
  - pose proof (split_space_not_nil s) as Hne.
    destruct (split_space s) as [|piece pieces]; [done|].
    destruct pieces; simpl in *; by rewrite <- IH.
Qed.

Lemma split_space_piece piece :
  noSpace piece = true → split_space piece = [piece].
Proof.
  induction piece as [|c piece IH]; simpl; [done|].
  destruct (decide (c = " "%char)); [done|].
  intros H. by rewrite IH.
Qed.

Lemma split_space_piece_space piece s :
  noSpace piece = true →
  split_space (piece ++ " " ++ s)%string = piece :: split_space s.
Proof.
  induction piece as [|c piece IH]; simpl; [done|].
  destruct (decide (c = " "%char)); [done|].
  intros H. by rewrite IH.
Qed.

(** Splitting the join of space-free pieces gives the pieces back. *)
Lemma split_join_space l :
  l ≠ [] → Forall (λ piece, noSpace piece = true) l →
  split_space (join_space l) = l.
Proof.
  induction l as [|x l IH]; [done|].
  intros _ Hall. inversion Hall as [|? ? Hx Hl]; subst.
  destruct l as [|y l].
  - simpl. by apply split_space_piece.
  - change (join_space (x :: y :: l))
      with (x ++ " " ++ join_space (y :: l))%string.
    rewrite split_space_piece_space by done.
    by rewrite IH.
Qed.

Lemma elem_of_uniq_from result array x :
  x ∈ uniq_from result array ↔ x ∈ result ∨ x ∈ array.
Proof.
  revert result. induction array as [|value rest IH]; intros result; simpl.
  - rewrite elem_of_nil. tauto.
  - destruct (decide (value ∈ result)) as [Hin|Hnin]; rewrite IH.
    + rewrite elem_of_cons. split; [tauto|].
      intros [?|[->|?]]; auto.
    + rewrite elem_of_app, list_elem_of_singleton, elem_of_cons. tauto.
Qed.

Lemma NoDup_uniq_from result array :
  NoDup result → NoDup (uniq_from result array).
Proof.
  revert result. induction array as [|value rest IH]; intros result Hnd; simpl.
  - done.
  - destruct (decide (value ∈ result)) as [Hin|Hnin]; apply IH; [done|].
    apply NoDup_app. split_and!; [done| |apply NoDup_singleton].
    intros x Hx ->%list_elem_of_singleton. done.
Qed.

(** A list without duplicates is left as it is. *)
Lemma uniq_from_NoDup result array :
  NoDup (result ++ array) → uniq_from result array = result ++ array.
Proof.
  revert result. induction array as [|value rest IH]; intros result Hnd; simpl.
  - by rewrite app_nil_r.
  - apply NoDup_app in Hnd as Hparts. destruct Hparts as (_ & Hdisj & _).
    rewrite decide_False.
    + rewrite IH; rewrite <- app_assoc; done.
    + intros Hin. apply (Hdisj _ Hin). apply elem_of_cons. auto.
Qed.

Lemma elem_of_uniq array x : x ∈ uniq array ↔ x ∈ array.
Proof.
  unfold uniq. rewrite elem_of_uniq_from, elem_of_nil. tauto.
Qed.

Lemma NoDup_uniq array : NoDup (uniq array).
Proof. apply NoDup_uniq_from, NoDup_nil_2. Qed.

Lemma uniq_NoDup array : NoDup array → uniq array = array.
Proof. intros Hnd. unfold uniq. by rewrite uniq_from_NoDup. Qed.

Lemma Forall_uniq (P : string → Prop) array : Forall P array → Forall P (uniq array).
Proof.
  rewrite !Forall_forall. intros H x Hx. apply H. by apply elem_of_uniq.
Qed.

(** ** Adding and removing users *)

Lemma Dict_truthy_own {V} (d : Dict.t V) k v :
  Dict.get d k = Some v → Dict.truthy d k = true.
Proof. unfold Dict.truthy. by intros ->. Qed.

Lemma Dict_truthy_false {V} (d : Dict.t V) k :
  Dict.truthy d k = false ↔ Dict.get d k = None ∧ inherited k = false.
Proof.
  unfold Dict.truthy. destruct (Dict.get d k); split; try done.
  - by intros [? _].
  - by intros [_ ?].
Qed.

Lemma Dict_delete_absent {V} (d : Dict.t V) k :
  Dict.get d k = None → Dict.delete d k = d.
Proof.
  induction d as [|[k' v'] d IH]; simpl; [done|].
  destruct (decide (k' = k)); [done|]. intros H. by rewrite IH.
Qed.

Lemma addUser_frame a r user k :
  k ≠ id user →
  Dict.get (addUser (a, r) user).1 k = Dict.get a k ∧
  Dict.get (addUser (a, r) user).2 k = Dict.get r k.
Proof.
  intros Hne. unfold addUser.
  destruct (Dict.truthy r (id user)); simpl.
  - split; [done|]. apply Dict_get_delete_ne. congruence.
  - split; [|done]. apply Dict_get_set_ne. congruence.
Qed.

(** What one turn of the loop does to the entries of its own user. *)
Lemma addUser_self a r user :
  Dict.get (addUser (a, r) user).2 (id user) = None ∧
  Dict.get (addUser (a, r) user).1 (id user) =
    if Dict.truthy r (id user) then Dict.get a (id user) else Some user.
Proof.
  unfold addUser. destruct (Dict.truthy r (id user)) eqn:Htest; simpl.
  - split; [apply Dict_get_delete_eq|done].
  - apply Dict_truthy_false in Htest as [Hget _].
    split; [done|apply Dict_get_set_eq].
Qed.

(** Users outside the list keep their entries. *)
Lemma foldl_addUser_frame users maps k :
  k ∉ map id users →
  Dict.get (foldl addUser maps users).1 k = Dict.get maps.1 k ∧
  Dict.get (foldl addUser maps users).2 k = Dict.get maps.2 k.
Proof.
  revert maps. induction users as [|user users IH]; intros [a r] Hk.
  - done.
  - change (map id (user :: users)) with (id user :: map id users) in Hk.
    apply not_elem_of_cons in Hk as [Hne Hk].
    change (foldl addUser (a, r) (user :: users))
      with (foldl addUser (addUser (a, r) user) users).
    destruct (IH (addUser (a, r) user) Hk) as [Ha Hr].
    destruct (addUser_frame a r user k Hne) as [Ha' Hr'].
    rewrite Ha, Hr, Ha', Hr'. done.
Qed.

(** A user of the list has no pending removal afterwards. *)
Lemma foldl_addUser_removed users maps k :
  k ∈ map id users → Dict.get (foldl addUser maps users).2 k = None.
Proof.
  revert maps. induction users as [|user users IH]; intros [a r] Hk.
  - by apply elem_of_nil in Hk.
  - change (foldl addUser (a, r) (user :: users))
      with (foldl addUser (addUser (a, r) user) users).
    destruct (decide (k ∈ map id users)) as [Hin|Hout]; [by apply IH|].
    change (map id (user :: users)) with (id user :: map id users) in Hk.
    apply elem_of_cons in Hk as [->|Hk]; [|done].
    destruct (foldl_addUser_frame users (addUser (a, r) user) (id user) Hout)
      as [_ ->].
    apply addUser_self.
Qed.

(** The entries of a user after its last occurrence in the list. *)
Lemma foldl_addUser_last before user after maps :
  id user ∉ map id after →
  let middle := foldl addUser maps before in
  let final := foldl addUser maps (before ++ user :: after) in
  Dict.get final.2 (id user) = None ∧
  Dict.get final.1 (id user) =
    if Dict.truthy middle.2 (id user) then Dict.get middle.1 (id user)
    else Some user.
Proof.
  intros Hafter middle final. subst final. rewrite foldl_app.
  change (foldl addUser (foldl addUser maps before) (user :: after))
    with (foldl addUser (addUser middle user) after).
  destruct (foldl_addUser_frame after (addUser middle user) (id user) Hafter)
    as [-> ->].
  destruct middle as [a r]. apply addUser_self.
Qed.

Lemma last_occurrence (users : list UserProfile) k :
  k ∈ map id users →
  ∃ before user after,
    users = before ++ user :: after ∧ id user = k ∧ k ∉ map id after.
Proof.
  induction users as [|first users IH]; intros Hk.
  - by apply elem_of_nil in Hk.
  - destruct (decide (k ∈ map id users)) as [Hin|Hout].
    + destruct (IH Hin) as (before & user & after & -> & Hid & Hafter).
      by exists (first :: before), user, after.
    + change (map id (first :: users)) with (id first :: map id users) in Hk.
      apply elem_of_cons in Hk as [->|Hk]; [|done].
      by exists [], first, users.
Qed.

Lemma only_occurrence (users : list UserProfile) user :
  user ∈ users →
  length (filter (λ other, id other = id user) users) = 1 →
  ∃ before after,
    users = before ++ user :: after ∧
    (id user ∉ map id before) ∧ (id user ∉ map id after).
Proof.
  intros Hin Hone. apply list_elem_of_split in Hin as (before & after & ->).
  exists before, after. split; [done|].
  rewrite filter_app, filter_cons_True, length_app in Hone by done.
  simpl in Hone.
  assert (∀ l : list UserProfile,
            length (filter (λ other, id other = id user) l) = 0 →
            id user ∉ map id l) as Hnone.
  { intros l Hl Hk. apply list_elem_of_fmap in Hk as (other & Hid & Hother).
    apply length_zero_iff_nil in Hl.
    apply (filter_nil_not_elem_of _ _ other Hl); done. }
  split; apply Hnone; lia.
Qed.

Lemma addUsersToRole_pending users this :
  usersToAdd (addUsersToRole users this) =
    (foldl addUser (usersToAdd this, usersToRemove this) users).1 ∧
  usersToRemove (addUsersToRole users this) =
    (foldl addUser (usersToAdd this, usersToRemove this) users).2.
Proof.
  unfold addUsersToRole.
  by destruct (foldl addUser (usersToAdd this, usersToRemove this) users).
Qed.

(** C3 (amended). Take a list of users in which every user that has a
    pending removal occurs once, and every user that has none has an id
    that is not a name every object inherits and occurs, if several times,
    with one and the same profile. Then [addUsersToRole] deletes the pending
    removal of a user that has one, without creating a pending addition,
    makes every other user of the list a pending addition, and changes no
    other entry of either dictionary. *)
Theorem addUsersToRole_cancels_or_adds users this :
  (∀ user, user ∈ users →
     match Dict.get (usersToRemove this) (id user) with
     | Some _ => length (filter (λ other, id other = id user) users) = 1
     | None =>
         inherited (id user) = false ∧
         ∀ other, other ∈ users → id other = id user → other = user
     end) →
  addUsersCancelsOrAdds users this.
Proof.
  intros Hlist. unfold addUsersCancelsOrAdds.
  destruct (addUsersToRole_pending users this) as [-> ->]. split.
  - intros user Hin. specialize (Hlist user Hin) as Huser.
    destruct (Dict.get (usersToRemove this) (id user)) as [pending|] eqn:Hget.
    + destruct (only_occurrence users user Hin Huser)
        as (before & after & -> & Hbefore & Hafter).
      destruct (foldl_addUser_last before user after
                  (usersToAdd this, usersToRemove this) Hafter) as [Hr Ha].
      destruct (foldl_addUser_frame before (usersToAdd this, usersToRemove this)
                  (id user) Hbefore) as [Ha0 Hr0].
      simpl in Ha0, Hr0. split; [exact Hr|].
      rewrite Ha, Ha0, (Dict_truthy_own _ _ pending); [done|].
      by rewrite Hr0.
    + destruct Huser as [Hname Hsame].
      assert (id user ∈ map id users) as Hk.
      { apply list_elem_of_fmap. eauto. }
      destruct (last_occurrence users (id user) Hk)
        as (before & last & after & Husers & Hid & Hafter).
      assert (last = user) as ->.
      { apply Hsame; [|done]. rewrite Husers.
        apply elem_of_app. right. apply elem_of_cons. auto. }
      rewrite Husers.
      destruct (foldl_addUser_last before user after
                  (usersToAdd this, usersToRemove this) Hafter) as [Hr Ha].
      split; [|exact Hr]. rewrite Ha.
      assert (Dict.truthy
                (foldl addUser (usersToAdd this, usersToRemove this) before).2
                (id user) = false) as ->; [|done].
      apply Dict_truthy_false. split; [|done].
      destruct (decide (id user ∈ map id before)) as [Hin'|Hout].
      * by apply foldl_addUser_removed.
      * destruct (foldl_addUser_frame before
                    (usersToAdd this, usersToRemove this) (id user) Hout)
          as [_ ->]. done.
  - intros userId Hout.
    exact (foldl_addUser_frame users (usersToAdd this, usersToRemove this)
             userId Hout).
Qed.

Lemma addUsersToRole_cancels_or_adds_witness :
  addUsersCancelsOrAdds [Sample.ann; Sample.bob; Sample.bob] Sample.oneOut.
Proof.
  apply (addUsersToRole_cancels_or_adds [Sample.ann; Sample.bob; Sample.bob]
           Sample.oneOut).
  intros user Hin.
  apply elem_of_cons in Hin as [->|Hin]; [reflexivity|].
  assert (user = Sample.bob) as ->.
  { apply elem_of_cons in Hin as [->|Hin]; [done|].
    by apply list_elem_of_singleton in Hin. }
  split; [reflexivity|].
  intros other Hother Hid.
  apply elem_of_cons in Hother as [->|Hother]; [discriminate Hid|].
  apply elem_of_cons in Hother as [->|Hother]; [done|].
  by apply list_elem_of_singleton in Hother.
Defined.

(** C3 as stated fails when a user occurs twice in the list: the first
    occurrence cancels the pending removal, the second one then creates a
    pending addition. *)
Lemma addUsersToRole_twice_adds :
  ¬ addUsersCancelsOrAdds [Sample.ann; Sample.ann] Sample.oneOut.
Proof.
  intros [Hmember _].
  specialize (Hmember Sample.ann (list_elem_of_here _ _)).
  vm_compute in Hmember. destruct Hmember as [_ Hadd]. discriminate Hadd.
Qed.

(** The two other conditions of the amended C3 are needed as well: a user
    whose id is a name every object inherits is never added, since
    [usersToRemove[user.id]] is then a function and not [undefined]; and of
    two profiles under one id only the later one is kept. *)
Lemma addUsersToRole_inherited_id :
  ¬ addUsersCancelsOrAdds [Sample.tom] constructor.
Proof.
  intros [Hmember _].
  specialize (Hmember Sample.tom (list_elem_of_here _ _)).
  vm_compute in Hmember. destruct Hmember as [Hadd _]. discriminate Hadd.
Qed.

Lemma addUsersToRole_later_profile_kept :
  ¬ addUsersCancelsOrAdds [Sample.bob; Sample.bobLater] constructor.
Proof.
  intros [Hmember _].
  specialize (Hmember Sample.bob (list_elem_of_here _ _)).
  vm_compute in Hmember. destruct Hmember as [Hadd _]. discriminate Hadd.
Qed.

(** [removeUserFromRole] is [addUsersToRole] of the one user with the two
    dictionaries exchanged. *)
Lemma removeUserFromRole_mirror user this :
  swapPending (removeUserFromRole user this) =
    addUsersToRole [user] (swapPending this).
Proof.
  unfold removeUserFromRole, addUsersToRole, swapPending. simpl.
  unfold addUser.
  destruct (Dict.truthy (usersToAdd this) (id user));
    unfold setState, merge, getSaveNeeded; simpl; f_equal; apply orb_comm.
Qed.

(** C4 (amended). For a user who has a pending addition, or whose id is not
    a name every object inherits, [removeUserFromRole] cancels the pending
    addition without creating a pending removal, or else records a pending
    removal; the entries of all other users are unchanged; and it is
    [addUsersToRole] of the one user with the two dictionaries exchanged. *)
Theorem removeUserFromRole_cancels_or_removes user this :
  (Dict.get (usersToAdd this) (id user) = None → inherited (id user) = false) →
  removeUserCancelsOrRemoves user this ∧
  swapPending (removeUserFromRole user this) =
    addUsersToRole [user] (swapPending this).
Proof.
  intros Hname. split; [|apply removeUserFromRole_mirror].
  unfold removeUserCancelsOrRemoves, removeUserFromRole.
  destruct (Dict.get (usersToAdd this) (id user)) as [pending|] eqn:Hget.
  - rewrite (Dict_truthy_own _ _ pending Hget). simpl. split.
    + split; [apply Dict_get_delete_eq|done].
    + intros userId Hne. split; [|done]. apply Dict_get_delete_ne. congruence.
  - assert (Dict.truthy (usersToAdd this) (id user) = false) as ->.
    { apply Dict_truthy_false. auto. }
    simpl. split.
    + split; [apply Dict_get_set_eq|done].
    + intros userId Hne. split; [done|]. apply Dict_get_set_ne. congruence.
Qed.

Lemma removeUserFromRole_cancels_or_removes_witness :
  removeUserCancelsOrRemoves Sample.ann constructor ∧
  Dict.get (usersToRemove (removeUserFromRole Sample.ann constructor)) "u1" =
    Some Sample.ann.
Proof.
  assert (Dict.get (usersToAdd constructor) (id Sample.ann) = None →
          inherited (id Sample.ann) = false) as Hname by reflexivity.
  destruct (removeUserFromRole_cancels_or_removes Sample.ann constructor Hname)
    as [Hclaim _].
  split; [exact Hclaim|reflexivity].
Defined.

(** C4 as stated fails for a user whose id is a name every object
    inherits: [usersToAdd[user.id]] is then a function and not [undefined],
    so the branch that deletes is taken and no pending removal is
    recorded. *)
Lemma removeUserFromRole_inherited_id :
  ¬ removeUserCancelsOrRemoves Sample.tom constructor.
Proof.
  intros [[Hremoved _] _]. vm_compute in Hremoved. discriminate Hremoved.
Qed.

(** ** Pending permission changes *)

(** C9. [updatePermission] sets the entry of [name] in
    [permissionsToUpdate] to [value] and changes nothing else: not the
    other entries, not any other field of the state. *)
Theorem updatePermission_frame name value this :
  let next := updatePermission name value this in
  permissionsToUpdate next !! name = Some value ∧
  (∀ other, other ≠ name →
     permissionsToUpdate next !! other = permissionsToUpdate this !! other) ∧
  usersToAdd next = usersToAdd this ∧
  usersToRemove next = usersToRemove this ∧
  saving next = saving this ∧
  saveNeeded next = saveNeeded this ∧
  serverError next = serverError this ∧
  saveKey next = saveKey this.
Proof.
  unfold updatePermission, setState, merge. simpl. split_and!; try done.
  - apply lookup_insert_eq.
  - intros other Hne. by apply lookup_insert_ne.
Qed.

(** ** Reading traces *)

Lemma calls_app e1 e2 : calls (e1 ++ e2) = calls e1 ++ calls e2.
Proof. unfold calls. by rewrite flat_map_app. Qed.

Lemma delivered_app e1 e2 : delivered (e1 ++ e2) = delivered e1 ++ delivered e2.
Proof. unfold delivered. by rewrite flat_map_app. Qed.

Lemma calls_issue requests : calls (issue requests) = requests.
Proof.
  induction requests as [|[userId roles] requests IH]; simpl; [done|].
  by rewrite IH.
Qed.

Lemma delivered_issue requests : delivered (issue requests) = [].
Proof. induction requests as [|[userId roles] requests IH]; simpl; done. Qed.

Lemma calls_phaseEvents requests settled :
  calls (phaseEvents requests settled) = requests.
Proof.
  destruct requests as [|r requests]; [done|].
  unfold phaseEvents. rewrite calls_app, calls_issue. simpl. by rewrite app_nil_r.
Qed.

Lemma delivered_phaseEvents requests settled :
  length settled = length requests →
  delivered (phaseEvents requests settled) = settled.
Proof.
  destruct requests as [|r requests].
  - by destruct settled.
  - intros _. unfold phaseEvents. rewrite delivered_app, delivered_issue.
    simpl. by rewrite app_nil_r.
Qed.

(** Every key of a dictionary yields one request. *)
Lemma length_requestsAt updatedRoles (d : Dict.t UserProfile) userIds :
  userIds ⊆ Dict.keys d →
  length (requestsAt updatedRoles d userIds) = length userIds.
Proof.
  induction userIds as [|userId userIds IH]; intros Hsub; simpl; [done|].
  destruct (Dict_get_key d userId) as [user ->].
  { apply Hsub, elem_of_cons. auto. }
  simpl. rewrite IH; [done|].
  intros k Hk. apply Hsub, elem_of_cons. auto.
Qed.

Lemma length_removeRequests role this :
  length (removeRequests role this) = length (Dict.keys (usersToRemove this)).
Proof. by apply length_requestsAt. Qed.

Lemma length_addRequests role this :
  length (addRequests role this) = length (Dict.keys (usersToAdd this)).
Proof. by apply length_requestsAt. Qed.

(** With pairwise distinct keys the requests follow the entries. *)
Lemma requestsAt_wf updatedRoles (d : Dict.t UserProfile) :
  Dict.wf d →
  requestsAt updatedRoles d (Dict.keys d) =
    map (λ entry, (entry.1, updatedRoles entry.2)) d.
Proof.
  unfold Dict.wf.
  assert (∀ rest : Dict.t UserProfile,
            (∀ entry, entry ∈ rest → Dict.get d entry.1 = Some entry.2) →
            requestsAt updatedRoles d (Dict.keys rest) =
              map (λ entry, (entry.1, updatedRoles entry.2)) rest) as Hgen.
  { induction rest as [|[k user] rest IH]; intros Hget; [done|].
    pose proof (Hget (k, user) (list_elem_of_here _ _)) as Hk. simpl in Hk.
    change (requestsAt updatedRoles d (Dict.keys ((k, user) :: rest)))
      with (match Dict.get d k with
            | Some user => [(k, updatedRoles user)]
            | None => []
            end ++ requestsAt updatedRoles d (Dict.keys rest)).
    rewrite Hk, IH; [done|].
    intros entry Hin. apply Hget, elem_of_cons. auto. }
  intros Hwf. apply Hgen. clear Hgen.
  induction d as [|[k user] d IH]; intros entry Hin.
  - by apply elem_of_nil in Hin.
  - change (Dict.keys ((k, user) :: d)) with (k :: Dict.keys d) in Hwf.
    apply NoDup_cons in Hwf as [Hfresh Hwf].
    apply elem_of_cons in Hin as [->|Hin]; simpl.
    + by rewrite decide_True.
    + rewrite decide_False; [by apply IH|].
      intros ->. apply Hfresh. apply list_elem_of_fmap. eauto.
Qed.

(** ** The save path *)
Section SubmitFacts.
Context {Server : Type}.
Variable settle : Server → list (string * string) → (nat → Settled) * Server.

Lemma forEach_requests (updatedRoles : UserProfile → string)
    (d : Dict.t UserProfile) userIds promises (w : World Server) :
  forEach userIds
    (λ userId promises,
       match Dict.get d userId with
       | Some user =>
           bind (updateUserRoles userId (updatedRoles user))
             (λ promise, ret (promises ++ [promise]))
       | None => ret promises
       end) promises w =
  (promises ++ map Build_Promise (requestsAt updatedRoles d userIds),
   {| trace := trace w ++ issue (requestsAt updatedRoles d userIds);
      server := server w |}).
Proof.
  revert promises w.
  induction userIds as [|userId userIds IH]; intros promises w; simpl.
  - unfold ret. rewrite !app_nil_r. by destruct w.
  - unfold bind at 1. destruct (Dict.get d userId) as [user|]; simpl.
    + rewrite IH. simpl. by rewrite <- !app_assoc.
    + rewrite IH. done.
Qed.

Lemma Promise_all_requests requests (w : World Server) :
  Promise_all Server settle (map Build_Promise requests) w =
    (map outcome (settleBatch Server settle (server w) requests).1,
     {| trace := trace w ++ [Joined (settleBatch Server settle (server w) requests).1];
        server := (settleBatch Server settle (server w) requests).2 |}).
Proof.
  unfold Promise_all, settleBatch.
  rewrite <- list_fmap_compose, length_map.
  replace (request ∘ Build_Promise) with (@Datatypes.id (string * string)%type) by done.
  rewrite list_fmap_id. by destruct (settle (server w) requests).
Qed.

Lemma bind_run {A B} (m : M Server A) (k : A → M Server B) (w : World Server) :
  bind m k w = k (m w).1 (m w).2.
Proof. unfold bind. by destruct (m w). Qed.

(** One phase: issue every request, await them all, keep the first
    error. *)
Lemma phase_run (updatedRoles : UserProfile → string)
    (d : Dict.t UserProfile) (serverError : option JSXElement)
    (w : World Server) :
  bind
    (forEach (Dict.keys d)
       (λ userId promises,
          match Dict.get d userId with
          | Some user =>
              bind (updateUserRoles userId (updatedRoles user))
                (λ promise, ret (promises ++ [promise]))
          | None => ret promises
          end) [])
    (λ promises,
       bind (Promise_all Server settle promises)
         (λ result, ret (errorOf result serverError))) w =
  let requests := requestsAt updatedRoles d (Dict.keys d) in
  let batch := settleBatch Server settle (server w) requests in
  (errorOf (map outcome batch.1) serverError,
   {| trace := trace w ++ issue requests ++ [Joined batch.1];
      server := batch.2 |}).
Proof.
  unfold bind at 1. rewrite forEach_requests. simpl.
  unfold bind. rewrite Promise_all_requests. simpl.
  unfold ret. by rewrite <- app_assoc.
Qed.

Lemma length_settleBatch sv requests :
  length (settleBatch Server settle sv requests).1 = length requests.
Proof. unfold settleBatch. simpl. by rewrite length_map, length_seq. Qed.

Lemma phaseEvents_nonempty requests settled :
  (0 <? length requests) = true →
  phaseEvents requests settled = issue requests ++ [Joined settled].
Proof. by destruct requests. Qed.

Lemma length_zero_nil {A} (l : list A) : (0 <? length l) = false → l = [].
Proof. by destruct l. Qed.

(** The shape of every run of [handleSubmit]: the removal phase, then the
    addition phase unless the removal phase gave an error, then the final
    [setState]. *)
Lemma handleSubmit_run role this (w : World Server) :
  ∃ settledR settledA sv',
    let R := removeRequests role this in
    let A := if isNull (surfaced settledR) then addRequests role this else [] in
    let error := errorOf (map outcome settledA) (surfaced settledR) in
    length settledR = length R ∧ length settledA = length A ∧
    handleSubmit Server settle role this w =
      ({| usersToAdd := []; usersToRemove := [];
          permissionsToUpdate := permissionsToUpdate this;
          saving := false;
          saveNeeded := negb (isNull error);
          serverError := error;
          saveKey := if isNull error then (saveKey this + 1)%Z else saveKey this |},
       {| trace := trace w ++ phaseEvents R settledR ++ phaseEvents A settledA;
          server := sv' |}).
Proof.
  pose proof (length_removeRequests role this) as HlenR.
  pose proof (length_addRequests role this) as HlenA.
  assert (∀ e1 (w1 : World Server), ∃ settledA sv',
            let A := if isNull e1 then addRequests role this else [] in
            length settledA = length A ∧
            (if (0 <? length (Dict.keys (usersToAdd this))) && isNull e1
             then
               bind
                 (forEach (Dict.keys (usersToAdd this))
                    (λ userId promises,
                       match Dict.get (usersToAdd this) userId with
                       | Some user =>
                           bind (updateUserRoles userId
                                   (join_space (rolesWith role user)))
                             (λ promise, ret (promises ++ [promise]))
                       | None => ret promises
                       end) [])
                 (λ promises,
                    bind (Promise_all Server settle promises)
                      (λ result, ret (errorOf result e1)))
             else ret e1) w1 =
            (errorOf (map outcome settledA) e1,
             {| trace := trace w1 ++ phaseEvents A settledA; server := sv' |}))
    as Hadd.
  { intros e1 w1.
    destruct ((0 <? length (Dict.keys (usersToAdd this))) && isNull e1) eqn:Hgo.
    - apply andb_true_iff in Hgo as [Hn He]. rewrite He.
      pose proof (phase_run (λ user, join_space (rolesWith role user))
                    (usersToAdd this) e1 w1) as HA.
      cbv beta zeta in HA. fold (addRequests role this) in HA.
      eexists _, _. split; [|rewrite HA; rewrite phaseEvents_nonempty; [reflexivity|]].
      + apply length_settleBatch.
      + by rewrite HlenA.
    - exists [], (server w1). split.
      + apply andb_false_iff in Hgo as [Hn| ->]; [|done].
        rewrite <- HlenA in Hn. apply length_zero_nil in Hn. rewrite Hn.
        by destruct (isNull e1).
      + assert (phaseEvents (if isNull e1 then addRequests role this else []) [] = [])
          as ->.
        { apply andb_false_iff in Hgo as [Hn| ->]; [|done].
          rewrite <- HlenA in Hn. apply length_zero_nil in Hn. rewrite Hn.
          by destruct (isNull e1). }
        unfold ret. rewrite app_nil_r. by destruct w1. }
  unfold handleSubmit. cbv zeta.
  change (usersToRemove (setState this _)) with (usersToRemove this).
  change (usersToAdd (setState this _)) with (usersToAdd this).
  unfold bind at 1.
  destruct (0 <? length (Dict.keys (usersToRemove this))) eqn:HnR.
  - pose proof (phase_run (λ user, join_space (rolesWithout role user))
                  (usersToRemove this) None w) as HR.
    cbv beta zeta in HR. fold (removeRequests role this) in HR.
    rewrite HR. clear HR.
    set (batchR := settleBatch Server settle (server w) (removeRequests role this)).
    exists batchR.1.
    edestruct (Hadd (errorOf (map outcome batchR.1) None)) as (settledA & sv' & HlA & HrunA).
    exists settledA, sv'. split; [apply length_settleBatch|]. split; [exact HlA|].
    rewrite phaseEvents_nonempty by (by rewrite HlenR).
    unfold bind. rewrite HrunA. unfold ret, surfaced, setState, merge. simpl.
    by rewrite <- !app_assoc.
  - exists [].
    edestruct (Hadd None) as (settledA & sv' & HlA & HrunA).
    exists settledA, sv'. split.
    { rewrite <- HlenR in HnR. by apply length_zero_nil in HnR as ->. }
    split; [exact HlA|].
    unfold ret at 1. unfold bind. change (surfaced []) with (@None JSXElement).
    rewrite HrunA. unfold ret, setState, merge. simpl.
    rewrite <- HlenR in HnR. by apply length_zero_nil in HnR as ->.
Qed.

Lemma handleSubmit_fresh role this (sv : Server) :
  let run := handleSubmit Server settle role this (fresh sv) in
  ∃ settledR settledA,
    let R := removeRequests role this in
    let A := if isNull (surfaced settledR) then addRequests role this else [] in
    let error := errorOf (map outcome settledA) (surfaced settledR) in
    length settledR = length R ∧ length settledA = length A ∧
    trace run.2 = phaseEvents R settledR ++ phaseEvents A settledA ∧
    calls (trace run.2) = R ++ A ∧
    delivered (trace run.2) = settledR ++ settledA ∧
    run.1 =
      {| usersToAdd := []; usersToRemove := [];
         permissionsToUpdate := permissionsToUpdate this;
         saving := false;
         saveNeeded := negb (isNull error);
         serverError := error;
         saveKey := if isNull error then (saveKey this + 1)%Z else saveKey this |}.
Proof.
  destruct (handleSubmit_run role this (fresh sv))
    as (settledR & settledA & sv' & HlR & HlA & Hrun).
  cbv zeta in *. exists settledR, settledA. rewrite Hrun. simpl.
  split_and!; try done.
  - by rewrite calls_app, !calls_phaseEvents.
  - by rewrite delivered_app, !delivered_phaseEvents.
Qed.
End SubmitFacts.

(** ** Which error is shown *)

Lemma surfaced_cons s settled :
  surfaced (s :: settled) =
    match outcome s with
    | ActionError error => Some (FormError (message error))
    | ActionData _ => surfaced settled
    end.
Proof. unfold surfaced, errorOf. simpl. by destruct (outcome s). Qed.

Lemma surfaced_None settled :
  surfaced settled = None ↔ existsb failed settled = false.
Proof.
  induction settled as [|s settled IH]; [done|].
  rewrite surfaced_cons. simpl. unfold failed at 1.
  destruct (outcome s); simpl; [exact IH|]. split; discriminate.
Qed.

Lemma isNull_surfaced settled :
  isNull (surfaced settled) = negb (existsb failed settled).
Proof.
  destruct (existsb failed settled) eqn:Hex; simpl.
  - destruct (surfaced settled) eqn:Hs; [done|].
    apply surfaced_None in Hs. congruence.
  - apply surfaced_None in Hex. by rewrite Hex.
Qed.

Lemma surfaced_app_ok before after :
  existsb failed before = false → surfaced (before ++ after) = surfaced after.
Proof.
  induction before as [|s before IH]; [done|]. simpl.
  intros [Hs Hrest]%orb_false_iff. rewrite surfaced_cons.
  unfold failed in Hs. destruct (outcome s); [by apply IH|discriminate].
Qed.

Lemma surfaced_app_failed before after :
  existsb failed before = true → surfaced (before ++ after) = surfaced before.
Proof.
  induction before as [|s before IH]; [done|]. simpl.
  rewrite !surfaced_cons. unfold failed at 1.
  destruct (outcome s); simpl; [exact IH|done].
Qed.

Lemma errorOf_surfaced settled serverError :
  errorOf (map outcome settled) serverError =
    if existsb failed settled then surfaced settled else serverError.
Proof.
  induction settled as [|s settled IH]; [done|].
  rewrite surfaced_cons. unfold errorOf in *. simpl. unfold failed at 1.
  destruct (outcome s); simpl; [exact IH|done].
Qed.

(** The element shown is the message of the first failed call, reading the
    settled calls from the front. *)
Lemma surfaced_first settled :
  match surfaced settled with
  | None => ∀ s, s ∈ settled → failed s = false
  | Some shown =>
      ∃ before s after error,
        settled = before ++ s :: after ∧
        (∀ s', s' ∈ before → failed s' = false) ∧
        outcome s = ActionError error ∧
        shown = FormError (message error)
  end.
Proof.
  induction settled as [|s settled IH].
  - simpl. intros s Hs. by apply elem_of_nil in Hs.
  - rewrite surfaced_cons. destruct (outcome s) as [data|error] eqn:Hout.
    + destruct (surfaced settled) as [shown|].
      * destruct IH as (before & s0 & after & error & -> & Hbefore & Hs0 & ->).
        exists (s :: before), s0, after, error. split_and!; try done.
        intros s' [->|Hin]%elem_of_cons; [|by apply Hbefore].
        unfold failed. by rewrite Hout.
      * intros s' [->|Hin]%elem_of_cons; [|by apply IH].
        unfold failed. by rewrite Hout.
    + exists [], s, settled, error. split_and!; try done.
      intros s' Hs'. by apply elem_of_nil in Hs'.
Qed.

(** ** Ordering of the two phases *)
Section SubmitClaims.
Context {Server : Type}.
Variable settle : Server → list (string * string) → (nat → Settled) * Server.

(** C2. Every run of [handleSubmit] issues the removal requests, awaits
    them, and only then issues addition requests; when a removal request
    failed no addition request is issued at all, whatever is pending. *)
Theorem removals_before_additions role this (sv : Server) :
  let run := handleSubmit Server settle role this (fresh sv) in
  ∃ settledR settledA,
    let A := if existsb failed settledR then [] else addRequests role this in
    length settledR = length (removeRequests role this) ∧
    trace run.2 =
      phaseEvents (removeRequests role this) settledR ++ phaseEvents A settledA ∧
    calls (trace run.2) = removeRequests role this ++ A.
Proof.
  destruct (handleSubmit_fresh settle role this sv)
    as (settledR & settledA & HlR & HlA & Htrace & Hcalls & _).
  cbv zeta in *. exists settledR, settledA.
  rewrite isNull_surfaced in Htrace, Hcalls.
  by destruct (existsb failed settledR).
Qed.

(** After a run both pending dictionaries are empty and
    [permissionsToUpdate] is untouched, with or without an error. *)
Lemma handleSubmit_clears_pending role this (w : World Server) :
  usersToAdd (handleSubmit Server settle role this w).1 = [] ∧
  usersToRemove (handleSubmit Server settle role this w).1 = [] ∧
  permissionsToUpdate (handleSubmit Server settle role this w).1 =
    permissionsToUpdate this.
Proof.
  destruct (handleSubmit_run settle role this w)
    as (settledR & settledA & sv' & _ & _ & Hrun).
  cbv zeta in Hrun. by rewrite Hrun.
Qed.

(** The flag, the error element and the counter after a run. *)
Lemma handleSubmit_flags role this (sv : Server) :
  let run := handleSubmit Server settle role this (fresh sv) in
  serverError run.1 = surfaced (delivered (trace run.2)) ∧
  saveNeeded run.1 = existsb failed (delivered (trace run.2)) ∧
  saving run.1 = false ∧
  saveKey run.1 =
    if existsb failed (delivered (trace run.2)) then saveKey this
    else (saveKey this + 1)%Z.
Proof.
  destruct (handleSubmit_fresh settle role this sv)
    as (settledR & settledA & HlR & HlA & _ & _ & Hdel & Hrun).
  cbv zeta in *. rewrite Hdel, Hrun. simpl. clear Hrun Hdel.
  rewrite errorOf_surfaced. rewrite isNull_surfaced in HlA.
  destruct (existsb failed settledR) eqn:HfR; simpl in HlA.
  - apply nil_length_inv in HlA as ->. simpl. rewrite !app_nil_r, HfR.
    pose proof (isNull_surfaced settledR) as Hnull. rewrite HfR in Hnull.
    simpl in Hnull. rewrite Hnull. done.
  - rewrite existsb_app, HfR. simpl.
    rewrite (surfaced_app_ok settledR settledA HfR).
    apply surfaced_None in HfR as HsR. rewrite HsR.
    destruct (existsb failed settledA) eqn:HfA.
    + pose proof (isNull_surfaced settledA) as Hnull. rewrite HfA in Hnull.
      simpl in Hnull. rewrite Hnull. done.
    + apply surfaced_None in HfA. rewrite HfA. done.
Qed.

(** C6. From a state with two pending additions and one pending removal,
    a run in which no call fails issues three requests, one in the
    removal phase and then two in the addition phase, leaves both pending
    dictionaries empty and raises [saveKey] by one. *)
Theorem submit_two_in_one_out role this (sv : Server) :
  let run := handleSubmit Server settle role this (fresh sv) in
  length (Dict.keys (usersToAdd this)) = 2 →
  length (Dict.keys (usersToRemove this)) = 1 →
  existsb failed (delivered (trace run.2)) = false →
  (∃ out in1 in2 settledOut settledIn1 settledIn2,
     removeRequests role this = [out] ∧
     addRequests role this = [in1; in2] ∧
     trace run.2 =
       [Issued out.1 out.2; Joined [settledOut];
        Issued in1.1 in1.2; Issued in2.1 in2.2;
        Joined [settledIn1; settledIn2]] ∧
     calls (trace run.2) = [out; in1; in2]) ∧
  usersToAdd run.1 = [] ∧
  usersToRemove run.1 = [] ∧
  saveKey run.1 = (saveKey this + 1)%Z.
Proof.
  intros run Hadd Hremove Hok.
  destruct (handleSubmit_flags role this sv) as (_ & _ & _ & Hkey).
  destruct (handleSubmit_clears_pending role this (fresh sv)) as (Ha & Hr & _).
  fold run in Hkey, Ha, Hr. rewrite Hok in Hkey.
  split; [|done].
  destruct (handleSubmit_fresh settle role this sv)
    as (settledR & settledA & HlR & HlA & Htrace & Hcalls & Hdel & _).
  cbv zeta in *. fold run in Htrace, Hcalls, Hdel.
  rewrite Hdel, existsb_app in Hok. apply orb_false_iff in Hok as [HokR HokA].
  rewrite isNull_surfaced, HokR in Htrace, Hcalls, HlA. simpl in *.
  rewrite length_removeRequests, Hremove in HlR.
  rewrite length_addRequests, Hadd in HlA.
  pose proof (length_removeRequests role this) as HnR. rewrite Hremove in HnR.
  pose proof (length_addRequests role this) as HnA. rewrite Hadd in HnA.
  destruct (removeRequests role this) as [|out [|? ?]]; try discriminate HnR.
  destruct (addRequests role this) as [|in1 [|in2 [|? ?]]]; try discriminate HnA.
  destruct settledR as [|settledOut [|? ?]]; try discriminate HlR.
  destruct settledA as [|settledIn1 [|settledIn2 [|? ?]]]; try discriminate HlA.
  exists out, in1, in2, settledOut, settledIn1, settledIn2.
  split_and!; done.
Qed.

(** ** Pending permission changes and the save path *)

(** C10. Two states that differ only in [permissionsToUpdate] make
    [handleSubmit] issue the same requests, leave the same trace and the
    same server, and end in states that differ only in
    [permissionsToUpdate], which the run leaves as it found it. *)
Theorem submit_ignores_permissions role this p (w : World Server) :
  let run1 := handleSubmit Server settle role this w in
  let run2 := handleSubmit Server settle role (withPermissions p this) w in
  run2.2 = run1.2 ∧
  calls (trace run2.2) = calls (trace run1.2) ∧
  run2.1 = withPermissions p run1.1 ∧
  permissionsToUpdate run1.1 = permissionsToUpdate this ∧
  permissionsToUpdate run2.1 = p.
Proof.
  intros run1 run2.
  destruct (handleSubmit_clears_pending role this w) as (_ & _ & Hperm).
  assert (run2 = (withPermissions p run1.1, run1.2)) as Hrun.
  { subst run1 run2. unfold handleSubmit. cbv zeta.
    change (usersToRemove (setState (withPermissions p this) _))
      with (usersToRemove this).
    change (usersToAdd (setState (withPermissions p this) _))
      with (usersToAdd this).
    change (usersToRemove (setState this _)) with (usersToRemove this).
    change (usersToAdd (setState this _)) with (usersToAdd this).
    rewrite !bind_run. reflexivity. }
  assert (run2.2 = run1.2 ∧ run2.1 = withPermissions p run1.1) as [Hw Hs].
  { by rewrite Hrun. }
  split_and!; try done.
  - by rewrite Hw.
  - rewrite Hs. done.
Qed.
End SubmitClaims.

(** ** The role lists that are sent *)

Lemma elem_of_requestsAt updatedRoles (d : Dict.t UserProfile) userIds userId roles :
  (userId, roles) ∈ requestsAt updatedRoles d userIds ↔
  userId ∈ userIds ∧ ∃ user, Dict.get d userId = Some user ∧ roles = updatedRoles user.
Proof.
  induction userIds as [|k userIds IH].
  - simpl. rewrite !elem_of_nil. tauto.
  - change (requestsAt updatedRoles d (k :: userIds))
      with (match Dict.get d k with
            | Some user => [(k, updatedRoles user)]
            | None => []
            end ++ requestsAt updatedRoles d userIds).
    rewrite elem_of_app, IH, elem_of_cons. clear IH. split.
    + intros [Hhead|[Hin Huser]]; [|tauto].
      destruct (Dict.get d k) as [user|] eqn:Hget.
      * apply list_elem_of_singleton in Hhead. injection Hhead as -> ->. eauto.
      * by apply elem_of_nil in Hhead.
    + intros [[->|Hin] (user & Hget & ->)]; [|eauto].
      left. rewrite Hget. by apply list_elem_of_singleton.
Qed.

Lemma elem_of_requests_keys updatedRoles (d : Dict.t UserProfile) userId roles :
  (userId, roles) ∈ requestsAt updatedRoles d (Dict.keys d) ↔
  ∃ user, Dict.get d userId = Some user ∧ roles = updatedRoles user.
Proof.
  rewrite elem_of_requestsAt. split; [tauto|].
  intros (user & Hget & ->). split; [|eauto].
  destruct (decide (userId ∈ Dict.keys d)) as [|Hout]; [done|].
  apply Dict_get_None in Hout. congruence.
Qed.

Lemma filter_eq_NoDup (x : string) l :
  NoDup l → x ∈ l → length (filter (λ y, y = x) l) = 1.
Proof.
  induction l as [|y l IH]; intros Hnd Hin.
  - by apply elem_of_nil in Hin.
  - apply NoDup_cons in Hnd as [Hfresh Hnd].
    destruct (decide (y = x)) as [->|Hne].
    + rewrite filter_cons_True by done. simpl. f_equal.
      apply length_zero_iff_nil, elem_of_nil_inv.
      intros z [-> Hz]%list_elem_of_filter. done.
    + rewrite filter_cons_False by done. apply IH; [done|].
      apply elem_of_cons in Hin as [->|Hin]; done.
Qed.

(** Shape of the two role lists. *)
Lemma rolesWithout_spec role user :
  NoDup (rolesWithout role user) ∧
  (∀ r, r ∈ rolesWithout role user ↔ r ∈ split_space (roles user) ∧ r ≠ name role).
Proof.
  unfold rolesWithout. split; [apply NoDup_uniq|].
  intros r. rewrite elem_of_uniq, list_elem_of_filter. tauto.
Qed.

Lemma rolesWith_spec role user :
  NoDup (rolesWith role user) ∧
  (∀ r, r ∈ rolesWith role user ↔ r ∈ split_space (roles user) ∨ r = name role) ∧
  length (filter (λ r, r = name role) (rolesWith role user)) = 1.
Proof.
  assert (∀ r, r ∈ rolesWith role user ↔ r ∈ split_space (roles user) ∨ r = name role)
    as Hmem.
  { intros r. unfold rolesWith.
    rewrite elem_of_uniq, elem_of_app, list_elem_of_singleton. tauto. }
  split_and!; [apply NoDup_uniq|exact Hmem|].
  apply filter_eq_NoDup; [apply NoDup_uniq|]. apply Hmem. auto.
Qed.

(** The string that is sent splits back into the list it was joined
    from: always for a non-empty removal list, and for an addition list
    whenever the role name has no space in it. *)
Lemma sent_roles_read_back role user :
  (rolesWithout role user ≠ [] →
   split_space (join_space (rolesWithout role user)) = rolesWithout role user) ∧
  (noSpace (name role) = true →
   split_space (join_space (rolesWith role user)) = rolesWith role user).
Proof.
  split.
  - intros Hne. apply split_join_space; [done|].
    unfold rolesWithout. apply Forall_uniq, Forall_forall.
    intros r [_ Hr]%list_elem_of_filter.
    pose proof (split_space_noSpace (roles user)) as Hall.
    rewrite Forall_forall in Hall. by apply Hall.
  - intros Hname. apply split_join_space.
    + intros Hnil. destruct (rolesWith_spec role user) as (_ & Hmem & _).
      assert (name role ∈ rolesWith role user) as Hin by (apply Hmem; auto).
      rewrite Hnil in Hin. by apply elem_of_nil in Hin.
    + unfold rolesWith. apply Forall_uniq, Forall_app. split.
      * apply split_space_noSpace.
      * by constructor.
Qed.

Section RoleLists.
Context {Server : Type}.
Variable settle : Server → list (string * string) → (nat → Settled) * Server.

(** C7 (amended). Every request of a run carries the role string of a
    pending user, and that string is read here the way it was written, as
    roles separated by single spaces. For a pending removal it has no
    duplicate, names exactly the user's non-empty roles other than the role
    name, and does not name the role (whose name is not empty). For a
    pending addition, when the role name has no space in it, it has no
    duplicate, names the role exactly once, also when the user already had
    it, and names besides it exactly the roles the user had. Every pending
    removal is sent, and so is every pending addition unless a call
    failed. *)
Theorem sent_role_lists_deduplicated role this (sv : Server) :
  let run := handleSubmit Server settle role this (fresh sv) in
  (∀ userId sent, (userId, sent) ∈ calls (trace run.2) →
     ∃ user,
       (Dict.get (usersToRemove this) userId = Some user ∧
        sent = join_space (rolesWithout role user) ∧
        NoDup (split_space sent) ∧
        (∀ r, r ≠ "" →
              (r ∈ split_space sent ↔
               r ∈ split_space (roles user) ∧ r ≠ name role)) ∧
        (name role ≠ "" → name role ∉ split_space sent)) ∨
       (Dict.get (usersToAdd this) userId = Some user ∧
        sent = join_space (rolesWith role user) ∧
        (noSpace (name role) = true →
         NoDup (split_space sent) ∧
         length (filter (λ r, r = name role) (split_space sent)) = 1 ∧
         (∀ r, r ∈ split_space sent ↔
               r ∈ split_space (roles user) ∨ r = name role)))) ∧
  (∀ userId user,
     Dict.get (usersToRemove this) userId = Some user →
     (userId, join_space (rolesWithout role user)) ∈ calls (trace run.2)) ∧
  (∀ userId user,
     Dict.get (usersToAdd this) userId = Some user →
     existsb failed (delivered (trace run.2)) = false →
     (userId, join_space (rolesWith role user)) ∈ calls (trace run.2)).
Proof.
  intros run.
  destruct (handleSubmit_fresh settle role this sv)
    as (settledR & settledA & HlR & HlA & _ & Hcalls & Hdel & _).
  cbv zeta in *. fold run in Hcalls, Hdel. rewrite Hcalls, Hdel. clear Hcalls Hdel.
  split_and!.
  - intros userId sent [Hin|Hin]%elem_of_app.
    + apply elem_of_requests_keys in Hin as (user & Hget & ->).
      exists user. left.
      destruct (rolesWithout_spec role user) as [Hnd Hmem].
      destruct (sent_roles_read_back role user) as [Hback _].
      split; [done|]. split; [done|].
      destruct (rolesWithout role user) as [|first others] eqn:Hlist.
      * simpl. split_and!.
        -- apply NoDup_singleton.
        -- intros r Hr.
           rewrite list_elem_of_singleton, <- Hmem, elem_of_nil. tauto.
        -- intros Hname Hin%list_elem_of_singleton. done.
      * rewrite Hback by done. split_and!; [done| |].
        -- intros r _. apply Hmem.
        -- intros _ Hin. apply Hmem in Hin as [_ Hne]. done.
    + destruct (isNull (surfaced settledR)); [|by apply elem_of_nil in Hin].
      apply elem_of_requests_keys in Hin as (user & Hget & ->).
      exists user. right. split; [done|]. split; [done|].
      intros Hname.
      destruct (rolesWith_spec role user) as (Hnd & Hmem & Hone).
      destruct (sent_roles_read_back role user) as [_ Hback].
      rewrite Hback by done. done.
  - intros userId user Hget. apply elem_of_app. left.
    apply elem_of_requests_keys. eauto.
  - intros userId user Hget Hok. apply elem_of_app. right.
    rewrite existsb_app in Hok. apply orb_false_iff in Hok as [HokR _].
    rewrite isNull_surfaced, HokR. simpl.
    apply elem_of_requests_keys. eauto.
Qed.
End RoleLists.

(** C7 as stated fails for a role whose name has a space in it: adding a
    user with role [a] to the role [a b] sends [a a b], which names [a]
    twice. *)
Lemma sent_roles_duplicate_for_spaced_role :
  ¬ sentRolesDuplicateFree Sample.accept Sample.spaced Sample.danIn tt.
Proof.
  unfold sentRolesDuplicateFree. intros Hnodup.
  assert (calls (trace (handleSubmit unit Sample.accept Sample.spaced
                          Sample.danIn (fresh tt)).2) = [("u4", "a a b")])
    as Hcalls by (vm_compute; reflexivity).
  rewrite Hcalls in Hnodup.
  specialize (Hnodup "u4" "a a b" (list_elem_of_here _ _)).
  change (split_space "a a b") with ["a"; "a"; "b"] in Hnodup.
  apply NoDup_cons in Hnodup as [Hfresh _].
  apply Hfresh, list_elem_of_here.
Qed.

(** ** Save-needed and the pending dictionaries *)

Lemma nonEmpty_true {V} (d : Dict.t V) : nonEmpty d = true ↔ d ≠ [].
Proof. destruct d; simpl; split; done. Qed.

(** The two callbacks recompute the flag from the dictionaries. *)
Lemma addUsersToRole_agrees users this : saveNeededAgrees (addUsersToRole users this).
Proof.
  unfold saveNeededAgrees, addUsersToRole.
  destruct (foldl addUser (usersToAdd this, usersToRemove this) users) as [a r].
  unfold getSaveNeeded. simpl.
  rewrite orb_true_iff. fold (nonEmpty a). fold (nonEmpty r).
  by rewrite !nonEmpty_true.
Qed.

Lemma removeUserFromRole_agrees user this :
  saveNeededAgrees (removeUserFromRole user this).
Proof.
  unfold saveNeededAgrees, removeUserFromRole.
  destruct (Dict.truthy (usersToAdd this) (id user)); unfold getSaveNeeded; simpl;
    rewrite orb_true_iff;
    match goal with
    | |- (0 <? length (Dict.keys ?a)) = true ∨ (0 <? length (Dict.keys ?r)) = true ↔ _ =>
        fold (nonEmpty a); fold (nonEmpty r)
    end;
    by rewrite !nonEmpty_true.
Qed.

Lemma updatePermission_agrees name value this :
  saveNeededAgrees this → saveNeededAgrees (updatePermission name value this).
Proof. done. Qed.

Section SaveNeeded.
Context {Server : Type}.
Variable settle : Server → list (string * string) → (nat → Settled) * Server.

(** After a run the flag agrees with the (empty) dictionaries exactly
    when no call failed. *)
Lemma handleSubmit_agrees role this (sv : Server) :
  let run := handleSubmit Server settle role this (fresh sv) in
  saveNeededAgrees run.1 ↔ existsb failed (delivered (trace run.2)) = false.
Proof.
  cbv zeta. unfold saveNeededAgrees.
  destruct (handleSubmit_clears_pending settle role this (fresh sv)) as (-> & -> & _).
  destruct (handleSubmit_flags settle role this sv) as (_ & -> & _).
  destruct (existsb failed (delivered (trace _))).
  - split; [|done]. intros [Hneed _]. destruct (Hneed eq_refl); done.
  - split; [done|]. intros _. split; [done|]. intros [?|?]; done.
Qed.

(** A failed run keeps the flag set. *)
Lemma handleSubmit_failed_saveNeeded role this (sv : Server) :
  let run := handleSubmit Server settle role this (fresh sv) in
  existsb failed (delivered (trace run.2)) = true → saveNeeded run.1 = true.
Proof.
  intros run Hfailed.
  destruct (handleSubmit_flags settle role this sv) as (_ & Hneed & _).
  fold run in Hneed. by rewrite Hneed.
Qed.
End SaveNeeded.

(** ** Keys of the pending dictionaries stay distinct *)

Lemma addUser_wf a r user :
  Dict.wf a → Dict.wf r →
  Dict.wf (addUser (a, r) user).1 ∧ Dict.wf (addUser (a, r) user).2.
Proof.
  intros Ha Hr. unfold addUser. destruct (Dict.truthy r (id user)); simpl.
  - split; [done|by apply Dict_wf_delete].
  - split; [by apply Dict_wf_set|done].
Qed.

Lemma foldl_addUser_wf users maps :
  Dict.wf maps.1 → Dict.wf maps.2 →
  Dict.wf (foldl addUser maps users).1 ∧ Dict.wf (foldl addUser maps users).2.
Proof.
  revert maps. induction users as [|user users IH]; intros [a r] Ha Hr; [done|].
  change (foldl addUser (a, r) (user :: users))
    with (foldl addUser (addUser (a, r) user) users).
  destruct (addUser_wf a r user Ha Hr). by apply IH.
Qed.

Lemma reachable_wf role s :
  reachable role s → Dict.wf (usersToAdd s) ∧ Dict.wf (usersToRemove s).
Proof.
  induction 1 as [|users s _ [Ha Hr]|user s _ [Ha Hr]|name value s _ IH
                  |Server settle w s _ _].
  - split; apply NoDup_nil_2.
  - destruct (addUsersToRole_pending users s) as [-> ->].
    by apply foldl_addUser_wf.
  - unfold removeUserFromRole.
    destruct (Dict.truthy (usersToAdd s) (id user)); simpl.
    + split; [by apply Dict_wf_delete|done].
    + split; [done|by apply Dict_wf_set].
  - exact IH.
  - destruct (handleSubmit_clears_pending settle role s w) as (-> & -> & _).
    split; apply NoDup_nil_2.
Qed.

(** ** Runs on the sample data *)

Lemma submit_two_in_one_out_witness :
  let run := handleSubmit unit Sample.accept Sample.manager Sample.oneOutTwoIn
               (fresh tt) in
  length (Dict.keys (usersToAdd Sample.oneOutTwoIn)) = 2 ∧
  length (Dict.keys (usersToRemove Sample.oneOutTwoIn)) = 1 ∧
  existsb failed (delivered (trace run.2)) = false ∧
  length (calls (trace run.2)) = 3 ∧
  usersToAdd run.1 = [] ∧
  usersToRemove run.1 = [] ∧
  saveKey run.1 = 1%Z.
Proof.
  intros run.
  assert (length (Dict.keys (usersToAdd Sample.oneOutTwoIn)) = 2) as Hin
    by reflexivity.
  assert (length (Dict.keys (usersToRemove Sample.oneOutTwoIn)) = 1) as Hout
    by reflexivity.
  assert (existsb failed (delivered (trace run.2)) = false) as Hok
    by (vm_compute; reflexivity).
  destruct (submit_two_in_one_out Sample.accept Sample.manager
              Sample.oneOutTwoIn tt Hin Hout Hok)
    as ((out & in1 & in2 & s0 & s1 & s2 & _ & _ & _ & Hcalls) & Ha & Hr & Hkey).
  fold run in Hcalls, Ha, Hr, Hkey.
  split_and!;
    [exact Hin|exact Hout|exact Hok|by rewrite Hcalls|exact Ha|exact Hr|exact Hkey].
Defined.

(** C1, at a failing input. Bob and Cyd are pending additions and the
    server rejects both calls: the run ends with an error shown and
    save-needed set, but with both pending dictionaries empty, so nothing
    is left to retry. *)
Theorem failed_submit_drops_pending :
  let this := Sample.twoIn in
  let run := handleSubmit unit Sample.rejectBackwards Sample.manager this (fresh tt) in
  existsb failed (delivered (trace run.2)) = true ∧
  Dict.keys (usersToAdd this) = ["u2"; "u3"] ∧
  usersToAdd run.1 = [] ∧
  usersToRemove run.1 = [] ∧
  saveNeeded run.1 = true ∧
  serverError run.1 = Some (FormError "cannot update u2") ∧
  ¬ pendingKeptOnError Sample.rejectBackwards Sample.manager this tt.
Proof.
  split_and!; try (vm_compute; reflexivity).
  intros Hkept. unfold pendingKeptOnError in Hkept.
  destruct Hkept as [Hadd _]; [vm_compute; reflexivity|].
  vm_compute in Hadd. discriminate Hadd.
Qed.

(** C5, at a failing input. The state after the failed run above is
    reachable, has save-needed set, and has no pending addition or
    removal. *)
Theorem saveNeeded_without_pending :
  let stuck :=
    (handleSubmit unit Sample.rejectBackwards Sample.manager Sample.twoIn
       (fresh tt)).1 in
  reachable Sample.manager stuck ∧
  saveNeeded stuck = true ∧
  usersToAdd stuck = [] ∧
  usersToRemove stuck = [] ∧
  ¬ saveNeededAgrees stuck.
Proof.
  split_and!; try (vm_compute; reflexivity).
  - apply reach_submit, reach_addUsers, reach_constructor.
  - intros [Hneed _].
    destruct Hneed as [Hadd|Hremove]; [vm_compute; reflexivity| |].
    + vm_compute in Hadd. by apply Hadd.
    + vm_compute in Hremove. by apply Hremove.
Qed.

(** C8 as stated fails: both calls are rejected and the second one
    completes first, yet the message shown is that of the first call. *)
Lemma first_completed_error_not_shown :
  ¬ firstCompletedErrorShown Sample.rejectBackwards Sample.manager Sample.twoIn tt.
Proof.
  unfold firstCompletedErrorShown. intros Hshown.
  assert (2 ≤ length (List.filter failed (delivered (trace
            (handleSubmit unit Sample.rejectBackwards Sample.manager
               Sample.twoIn (fresh tt)).2)))) as Htwo.
  { vm_compute. constructor. }
  specialize (Hshown Htwo). vm_compute in Hshown. discriminate Hshown.
Qed.

(** * Further properties of the component *)

(** ** Pending additions and removals exclude each other *)

Lemma addUser_exclusive a r user :
  (∀ k, Dict.get a k = None ∨ Dict.get r k = None) →
  ∀ k, Dict.get (addUser (a, r) user).1 k = None ∨
       Dict.get (addUser (a, r) user).2 k = None.
Proof.
  intros Hex k. destruct (decide (k = id user)) as [->|Hne].
  - right. apply addUser_self.
  - destruct (addUser_frame a r user k Hne) as [-> ->]. apply Hex.
Qed.

Lemma foldl_addUser_exclusive users maps :
  (∀ k, Dict.get maps.1 k = None ∨ Dict.get maps.2 k = None) →
  ∀ k, Dict.get (foldl addUser maps users).1 k = None ∨
       Dict.get (foldl addUser maps users).2 k = None.
Proof.
  revert maps. induction users as [|user users IH]; intros [a r] Hex; [done|].
  change (foldl addUser (a, r) (user :: users))
    with (foldl addUser (addUser (a, r) user) users).
  apply IH. by apply addUser_exclusive.
Qed.

Lemma reachable_exclusive role s :
  reachable role s →
  ∀ userId,
    Dict.get (usersToAdd s) userId = None ∨
    Dict.get (usersToRemove s) userId = None.
Proof.
  intros Hreach.
  induction Hreach as [|users s _ IH|user s _ IH|name value s _ IH
                       |Server settle w s _ _].
  - intros userId. by left.
  - destruct (addUsersToRole_pending users s) as [-> ->].
    by apply foldl_addUser_exclusive.
  - intros userId. unfold removeUserFromRole.
    destruct (Dict.truthy (usersToAdd s) (id user)) eqn:Htest; simpl.
    + destruct (decide (id user = userId)) as [<-|Hne].
      * left. apply Dict_get_delete_eq.
      * rewrite Dict_get_delete_ne by done. apply IH.
    + apply Dict_truthy_false in Htest as [Hget _].
      destruct (decide (id user = userId)) as [<-|Hne].
      * by left.
      * rewrite Dict_get_set_ne by done. apply IH.
  - exact IH.
  - destruct (handleSubmit_clears_pending settle role s w) as (-> & -> & _).
    intros userId. by left.
Qed.

(** X1. In every state the component can reach, the keys of each pending
    dictionary are pairwise distinct and no user is pending both as an
    addition and as a removal. *)
Theorem reachable_pending_exclusive role s :
  reachable role s →
  Dict.wf (usersToAdd s) ∧ Dict.wf (usersToRemove s) ∧
  ∀ userId,
    Dict.get (usersToAdd s) userId = None ∨
    Dict.get (usersToRemove s) userId = None.
Proof.
  intros Hreach. destruct (reachable_wf role s Hreach) as [Ha Hr].
  split; [done|]. split; [done|]. by apply (reachable_exclusive role).
Qed.

Lemma reachable_pending_exclusive_witness :
  reachable Sample.manager Sample.oneOutTwoIn ∧
  Dict.wf (usersToAdd Sample.oneOutTwoIn) ∧
  Dict.get (usersToRemove Sample.oneOutTwoIn) "u2" = None.
Proof.
  assert (reachable Sample.manager Sample.oneOutTwoIn) as Hreach.
  { apply reach_addUsers, reach_removeUser, reach_constructor. }
  destruct (reachable_pending_exclusive Sample.manager Sample.oneOutTwoIn Hreach)
    as (Ha & _ & _).
  split; [exact Hreach|]. split; [exact Ha|reflexivity].
Defined.

(** ** Adding and removing the same user *)

Lemma Dict_delete_set_absent {V} (d : Dict.t V) k v :
  Dict.get d k = None → Dict.delete (Dict.set d k v) k = d.
Proof.
  induction d as [|[k' v'] d IH]; simpl.
  - by rewrite decide_True.
  - destruct (decide (k' = k)) as [->|Hne]; [done|]. simpl.
    rewrite decide_False by done. intros H. by rewrite IH.
Qed.

(** X2. For a user with no pending entry, adding and then removing the
    user, or removing and then adding the user, gives both pending
    dictionaries back exactly as they were, and the whole state when its
    save-needed flag agreed with them. *)
Theorem add_remove_cancel user this :
  Dict.get (usersToAdd this) (id user) = None →
  Dict.get (usersToRemove this) (id user) = None →
  let there := removeUserFromRole user (addUsersToRole [user] this) in
  let back := addUsersToRole [user] (removeUserFromRole user this) in
  usersToAdd there = usersToAdd this ∧
  usersToRemove there = usersToRemove this ∧
  usersToAdd back = usersToAdd this ∧
  usersToRemove back = usersToRemove this ∧
  (saveNeeded this = nonEmpty (usersToAdd this) || nonEmpty (usersToRemove this) →
   there = this ∧ back = this).
Proof.
  intros Hadd Hremove there back.
  assert (Dict.truthy (usersToAdd this) (id user) = inherited (id user)) as Htadd.
  { unfold Dict.truthy. by rewrite Hadd. }
  assert (Dict.truthy (usersToRemove this) (id user) = inherited (id user))
    as Htremove.
  { unfold Dict.truthy. by rewrite Hremove. }
  assert (∀ (d : Dict.t UserProfile),
            Dict.truthy (Dict.set d (id user) user) (id user) = true) as Hset.
  { intros d. apply (Dict_truthy_own _ _ user), Dict_get_set_eq. }
  assert (there =
            {| usersToAdd := usersToAdd this; usersToRemove := usersToRemove this;
               permissionsToUpdate := permissionsToUpdate this;
               saving := saving this;
               saveNeeded := nonEmpty (usersToAdd this) || nonEmpty (usersToRemove this);
               serverError := serverError this; saveKey := saveKey this |}) as Hthere.
  { subst there. unfold removeUserFromRole, addUsersToRole. simpl.
    unfold addUser. rewrite Htremove.
    destruct (inherited (id user)); simpl.
    - rewrite Htadd. unfold setState, merge, getSaveNeeded. simpl.
      by rewrite !Dict_delete_absent.
    - rewrite Hset. unfold setState, merge, getSaveNeeded. simpl.
      by rewrite Dict_delete_set_absent. }
  assert (back =
            {| usersToAdd := usersToAdd this; usersToRemove := usersToRemove this;
               permissionsToUpdate := permissionsToUpdate this;
               saving := saving this;
               saveNeeded := nonEmpty (usersToAdd this) || nonEmpty (usersToRemove this);
               serverError := serverError this; saveKey := saveKey this |}) as Hback.
  { subst back. unfold removeUserFromRole, addUsersToRole. simpl.
    unfold addUser. rewrite Htadd.
    destruct (inherited (id user)); simpl.
    - rewrite Htremove. unfold setState, merge, getSaveNeeded. simpl.
      by rewrite !Dict_delete_absent.
    - rewrite Hset. unfold setState, merge, getSaveNeeded. simpl.
      by rewrite Dict_delete_set_absent. }
  rewrite Hthere, Hback. simpl. split_and!; try done.
  intros <-. by destruct this.
Qed.

Lemma add_remove_cancel_witness :
  removeUserFromRole Sample.cyd (addUsersToRole [Sample.cyd] Sample.oneOut) =
    Sample.oneOut.
Proof.
  assert (Dict.get (usersToAdd Sample.oneOut) (id Sample.cyd) = None) as Hadd
    by reflexivity.
  assert (Dict.get (usersToRemove Sample.oneOut) (id Sample.cyd) = None) as Hremove
    by reflexivity.
  destruct (add_remove_cancel Sample.cyd Sample.oneOut Hadd Hremove)
    as (_ & _ & _ & _ & Hstate).
  destruct Hstate as [Hthere _]; [reflexivity|exact Hthere].
Defined.

(** X3. Adding users in two batches is the same as adding them in one:
    [addUsersToRole (first ++ second)] gives the state of [addUsersToRole
    first] followed by [addUsersToRole second]. The empty batch only
    recomputes save-needed. *)
Theorem addUsersToRole_batches first second this :
  addUsersToRole (first ++ second) this =
    addUsersToRole second (addUsersToRole first this) ∧
  usersToAdd (addUsersToRole [] this) = usersToAdd this ∧
  usersToRemove (addUsersToRole [] this) = usersToRemove this ∧
  saveNeeded (addUsersToRole [] this) =
    nonEmpty (usersToAdd this) || nonEmpty (usersToRemove this).
Proof.
  split; [|done].
  unfold addUsersToRole. rewrite foldl_app.
  destruct (foldl addUser (usersToAdd this, usersToRemove this) first)
    as [a1 r1]. simpl.
  by destruct (foldl addUser (a1, r1) second) as [a2 r2].
Qed.

(** ** What the two membership callbacks leave alone, and what they reset *)

(** X4. Whatever the state before, after [addUsersToRole] and after
    [removeUserFromRole] save-needed is set exactly when a pending
    dictionary is non-empty; in particular either of them repairs a flag
    that disagreed with the dictionaries. *)
Theorem membership_callbacks_recompute_saveNeeded users user this :
  saveNeededAgrees (addUsersToRole users this) ∧
  saveNeededAgrees (removeUserFromRole user this) ∧
  saveNeeded (removeUserFromRole user this) =
    (nonEmpty (usersToAdd (removeUserFromRole user this)) ||
     nonEmpty (usersToRemove (removeUserFromRole user this))) ∧
  saveNeeded (addUsersToRole users this) =
    (nonEmpty (usersToAdd (addUsersToRole users this)) ||
     nonEmpty (usersToRemove (addUsersToRole users this))).
Proof.
  split_and!.
  - apply addUsersToRole_agrees.
  - apply removeUserFromRole_agrees.
  - unfold removeUserFromRole.
    by destruct (Dict.truthy (usersToAdd this) (id user)).
  - unfold addUsersToRole.
    by destruct (foldl addUser (usersToAdd this, usersToRemove this) users).
Qed.

(** X5. [addUsersToRole] and [removeUserFromRole] change nothing but the
    two pending dictionaries and save-needed: the pending permission
    changes, the saving flag, the error on display and the save counter stay
    as they were. *)
Theorem membership_callbacks_frame users user this :
  let added := addUsersToRole users this in
  let removed := removeUserFromRole user this in
  permissionsToUpdate added = permissionsToUpdate this ∧
  saving added = saving this ∧
  serverError added = serverError this ∧
  saveKey added = saveKey this ∧
  permissionsToUpdate removed = permissionsToUpdate this ∧
  saving removed = saving this ∧
  serverError removed = serverError this ∧
  saveKey removed = saveKey this.
Proof.
  unfold addUsersToRole, removeUserFromRole.
  destruct (foldl addUser (usersToAdd this, usersToRemove this) users).
  by destruct (Dict.truthy (usersToAdd this) (id user)).
Qed.

(** ** More about runs of the save path *)
Section SubmitFurther.
Context {Server : Type}.
Variable settle : Server → list (string * string) → (nat → Settled) * Server.

(** X6. With nothing pending, [handleSubmit] issues no call and awaits
    nothing, leaves the server alone, and still counts as a save that went
    through: no error, save-needed cleared, [saveKey] raised by one. *)
Theorem submit_nothing_pending role this (w : World Server) :
  usersToAdd this = [] → usersToRemove this = [] →
  let run := handleSubmit Server settle role this w in
  run.2 = w ∧
  serverError run.1 = None ∧
  saveNeeded run.1 = false ∧
  saving run.1 = false ∧
  saveKey run.1 = (saveKey this + 1)%Z.
Proof.
  intros Hadd Hremove. unfold handleSubmit. cbv zeta.
  change (usersToRemove (setState this _)) with (usersToRemove this).
  change (usersToAdd (setState this _)) with (usersToAdd this).
  rewrite Hadd, Hremove. done.
Qed.

(** X7. When the keys of the pending dictionaries are pairwise distinct,
    a run issues one request per pending removal, in the order of the
    entries, and then, unless it stops after the removals, one request per
    pending addition, in the order of the entries; it issues them all when
    no call fails. *)
Theorem one_request_per_entry role this (sv : Server) :
  Dict.wf (usersToAdd this) → Dict.wf (usersToRemove this) →
  let run := handleSubmit Server settle role this (fresh sv) in
  let outs :=
    map (λ entry, (entry.1, join_space (rolesWithout role entry.2)))
      (usersToRemove this) in
  let ins :=
    map (λ entry, (entry.1, join_space (rolesWith role entry.2)))
      (usersToAdd this) in
  (calls (trace run.2) = outs ∨ calls (trace run.2) = outs ++ ins) ∧
  (existsb failed (delivered (trace run.2)) = false →
   calls (trace run.2) = outs ++ ins).
Proof.
  intros Hadd Hremove run outs ins.
  destruct (handleSubmit_fresh settle role this sv)
    as (settledR & settledA & _ & _ & _ & Hcalls & Hdel & _).
  cbv zeta in *. fold run in Hcalls, Hdel. rewrite Hcalls, Hdel.
  unfold removeRequests, addRequests. rewrite !requestsAt_wf by done.
  fold outs ins. split.
  - destruct (isNull (surfaced settledR)); [by right|left].
    by rewrite app_nil_r.
  - rewrite existsb_app. intros [HokR _]%orb_false_iff.
    by rewrite isNull_surfaced, HokR.
Qed.

(** X8. How a run ends: the saving flag is down; an error is on display
    exactly when a call failed, and then save-needed is set and [saveKey]
    is as before; otherwise the error of an earlier run is gone,
    save-needed is cleared and [saveKey] is one more. *)
Theorem submit_outcome role this (sv : Server) :
  let run := handleSubmit Server settle role this (fresh sv) in
  saving run.1 = false ∧
  (serverError run.1 = None ↔ existsb failed (delivered (trace run.2)) = false) ∧
  (serverError run.1 = None →
   saveNeeded run.1 = false ∧ saveKey run.1 = (saveKey this + 1)%Z) ∧
  (serverError run.1 ≠ None →
   saveNeeded run.1 = true ∧ saveKey run.1 = saveKey this).
Proof.
  intros run.
  destruct (handleSubmit_flags settle role this sv) as (Herr & Hneed & Hsaving & Hkey).
  fold run in Herr, Hneed, Hsaving, Hkey.
  rewrite Herr, Hneed, Hkey, surfaced_None.
  destruct (existsb failed (delivered (trace run.2))); split_and!; done.
Qed.
End SubmitFurther.

Lemma submit_nothing_pending_witness :
  saveKey (handleSubmit unit Sample.rejectBackwards Sample.manager constructor
             (fresh tt)).1 = 1%Z.
Proof.
  destruct (submit_nothing_pending Sample.rejectBackwards Sample.manager
              constructor (fresh tt) eq_refl eq_refl)
    as (_ & _ & _ & _ & Hkey).
  exact Hkey.
Defined.

Lemma one_request_per_entry_witness :
  calls (trace (handleSubmit unit Sample.accept Sample.manager Sample.oneOutTwoIn
                  (fresh tt)).2) =
    [("u1", "system_user"); ("u2", "system_user system_manager");
     ("u3", "system_manager")].
Proof.
  assert (Dict.wf (usersToAdd Sample.oneOutTwoIn)) as Hadd.
  { apply NoDup_cons. split; [|apply NoDup_singleton].
    intros H%list_elem_of_singleton. discriminate H. }
  assert (Dict.wf (usersToRemove Sample.oneOutTwoIn)) as Hremove.
  { apply NoDup_singleton. }
  destruct (one_request_per_entry Sample.accept Sample.manager
              Sample.oneOutTwoIn tt Hadd Hremove) as [_ Hall].
  apply Hall. vm_compute. reflexivity.
Defined.

(** ** The save counter and the key of the member list *)

Lemma membership_callbacks_saveKey users user this :
  saveKey (addUsersToRole users this) = saveKey this ∧
  saveKey (removeUserFromRole user this) = saveKey this.
Proof.
  unfold addUsersToRole, removeUserFromRole.
  destruct (foldl addUser (usersToAdd this, usersToRemove this) users).
  by destruct (Dict.truthy (usersToAdd this) (id user)).
Qed.

(** X9. The key [render] gives to the member list is the number of runs of
    [handleSubmit] so far in which no call failed: the list is mounted
    afresh by such a run and by nothing else. *)
Theorem member_list_key_counts_saves props role n s :
  history role n s →
  saveKey s = Z.of_nat n ∧
  SystemRoleUsers.key (usersPanel (render props s)) = Z.of_nat n.
Proof.
  intros Hhistory. assert (saveKey s = Z.of_nat n) as Hkey; [|done].
  induction Hhistory as [|n users s _ IH|n user s _ IH|n name value s _ IH
                         |n Server settle sv s _ IH].
  - done.
  - destruct (membership_callbacks_saveKey users Sample.ann s) as [-> _].
    exact IH.
  - destruct (membership_callbacks_saveKey [] user s) as [_ ->]. exact IH.
  - exact IH.
  - destruct (handleSubmit_flags settle role s sv) as (_ & _ & _ & ->).
    destruct (existsb failed _); [exact IH|].
    rewrite IH. lia.
Qed.

(** ** Completion order plays no part *)
Section Explicit.
Context {Server : Type}.
Variable settle : Server → list (string * string) → (nat → Settled) * Server.

(** A run spelled out phase by phase. *)
Lemma handleSubmit_explicit role this (w : World Server) :
  let goR := 0 <? length (Dict.keys (usersToRemove this)) in
  let batchR := settleBatch Server settle (server w) (removeRequests role this) in
  let e1 := if goR then errorOf (map outcome batchR.1) None else None in
  let sv1 := if goR then batchR.2 else server w in
  let goA := (0 <? length (Dict.keys (usersToAdd this))) && isNull e1 in
  let batchA := settleBatch Server settle sv1 (addRequests role this) in
  let e2 := if goA then errorOf (map outcome batchA.1) e1 else e1 in
  let sv2 := if goA then batchA.2 else sv1 in
  let run := handleSubmit Server settle role this w in
  server run.2 = sv2 ∧
  calls (trace run.2) =
    calls (trace w) ++ (if goR then removeRequests role this else []) ++
    (if goA then addRequests role this else []) ∧
  run.1 =
    {| usersToAdd := []; usersToRemove := [];
       permissionsToUpdate := permissionsToUpdate this;
       saving := false;
       saveNeeded := negb (isNull e2);
       serverError := e2;
       saveKey := if isNull e2 then (saveKey this + 1)%Z else saveKey this |}.
Proof.
  pose proof (λ e w, phase_run settle (λ user, join_space (rolesWithout role user))
                       (usersToRemove this) e w) as HR.
  pose proof (λ e w, phase_run settle (λ user, join_space (rolesWith role user))
                       (usersToAdd this) e w) as HA.
  cbv beta zeta in HR, HA.
  fold (removeRequests role this) in HR. fold (addRequests role this) in HA.
  cbv zeta. unfold handleSubmit. cbv zeta.
  change (usersToRemove (setState this _)) with (usersToRemove this).
  change (usersToAdd (setState this _)) with (usersToAdd this).
  rewrite !bind_run.
  destruct (0 <? length (Dict.keys (usersToRemove this))).
  - rewrite HR. cbn [fst snd server trace].
    destruct ((0 <? length (Dict.keys (usersToAdd this))) && isNull _).
    + rewrite HA. cbn [fst snd server trace]. unfold ret. cbn [fst snd server trace].
      rewrite !calls_app, !calls_issue. simpl. rewrite !app_nil_r, <- !app_assoc.
      done.
    + unfold ret. cbn [fst snd server trace].
      rewrite !calls_app, !calls_issue. simpl. rewrite !app_nil_r. done.
  - unfold ret at 1 2 3 4 5 6. cbn [fst snd server trace].
    destruct ((0 <? length (Dict.keys (usersToAdd this))) && isNull _).
    + rewrite HA. cbn [fst snd server trace]. unfold ret. cbn [fst snd server trace].
      rewrite !calls_app, !calls_issue. simpl. rewrite !app_nil_r. done.
    + unfold ret. cbn [fst snd server trace]. rewrite !app_nil_r. done.
Qed.
End Explicit.

Section CompletionOrder.
Context {Server : Type}.
Variables settle1 settle2 :
  Server → list (string * string) → (nat → Settled) * Server.

Lemma settleBatch_outcomes (sv : Server) requests :
  (∀ sv requests, (settle1 sv requests).2 = (settle2 sv requests).2) →
  (∀ sv requests i,
     outcome ((settle1 sv requests).1 i) = outcome ((settle2 sv requests).1 i)) →
  map outcome (settleBatch Server settle1 sv requests).1 =
    map outcome (settleBatch Server settle2 sv requests).1 ∧
  (settleBatch Server settle1 sv requests).2 =
    (settleBatch Server settle2 sv requests).2.
Proof.
  intros Hserver Houtcome. unfold settleBatch. simpl. split; [|apply Hserver].
  rewrite !map_map. apply map_ext. intros i. apply Houtcome.
Qed.

(** X10. Two servers that give every call the same result and move to the
    same next state, but complete the calls at different moments, lead
    [handleSubmit] to the same final state, the same requests and the same
    server state: when the calls complete has no influence. *)
Theorem completion_times_do_not_matter role this (sv : Server) :
  (∀ sv requests, (settle1 sv requests).2 = (settle2 sv requests).2) →
  (∀ sv requests i,
     outcome ((settle1 sv requests).1 i) = outcome ((settle2 sv requests).1 i)) →
  let run1 := handleSubmit Server settle1 role this (fresh sv) in
  let run2 := handleSubmit Server settle2 role this (fresh sv) in
  run1.1 = run2.1 ∧
  calls (trace run1.2) = calls (trace run2.2) ∧
  server run1.2 = server run2.2.
Proof.
  intros Hserver Houtcome run1 run2.
  destruct (handleSubmit_explicit settle1 role this (fresh sv)) as (Hsv1 & Hcalls1 & Hs1).
  destruct (handleSubmit_explicit settle2 role this (fresh sv)) as (Hsv2 & Hcalls2 & Hs2).
  fold run1 in Hsv1, Hcalls1, Hs1. fold run2 in Hsv2, Hcalls2, Hs2.
  rewrite Hsv1, Hcalls1, Hs1, Hsv2, Hcalls2, Hs2.
  destruct (settleBatch_outcomes (server (fresh sv)) (removeRequests role this)
              Hserver Houtcome) as [HoR HsR].
  rewrite HoR, HsR.
  set (sv1 := if 0 <? length (Dict.keys (usersToRemove this))
              then (settleBatch Server settle2 (server (fresh sv))
                      (removeRequests role this)).2
              else server (fresh sv)).
  destruct (settleBatch_outcomes sv1 (addRequests role this) Hserver Houtcome)
    as [HoA HsA].
  rewrite HoA, HsA. done.
Qed.
End CompletionOrder.

Lemma completion_times_do_not_matter_witness :
  (handleSubmit unit Sample.accept Sample.manager Sample.oneOutTwoIn (fresh tt)).1 =
  (handleSubmit unit acceptBackwards Sample.manager Sample.oneOutTwoIn (fresh tt)).1.
Proof.
  assert (∀ (sv : unit) (requests : list (string * string)),
            (Sample.accept sv requests).2 = (acceptBackwards sv requests).2)
    as Hserver by reflexivity.
  assert (∀ (sv : unit) (requests : list (string * string)) i,
            outcome ((Sample.accept sv requests).1 i) =
              outcome ((acceptBackwards sv requests).1 i))
    as Houtcome by reflexivity.
  destruct (completion_times_do_not_matter Sample.accept acceptBackwards
              Sample.manager Sample.oneOutTwoIn tt Hserver Houtcome) as [Hstate _].
  exact Hstate.
Defined.

Lemma member_list_key_counts_saves_witness :
  SystemRoleUsers.key
    (usersPanel
       (render {| Props.role := Sample.manager; Props.isDisabled := None |}
          (handleSubmit unit Sample.accept Sample.manager Sample.oneOutTwoIn
             (fresh tt)).1)) = 1%Z.
Proof.
  assert (history Sample.manager 0 Sample.oneOutTwoIn) as Hbefore.
  { apply history_addUsers, history_removeUser, history_constructor. }
  pose proof (history_submit Sample.manager 0 unit Sample.accept tt
                Sample.oneOutTwoIn Hbefore) as Hafter.
  destruct (member_list_key_counts_saves
              {| Props.role := Sample.manager; Props.isDisabled := None |}
              Sample.manager _ _ Hafter) as [_ Hkey].
  exact Hkey.
Defined.

(** ** The role strings as the server reads them *)

Lemma uniq_from_app result first second :
  uniq_from result (first ++ second) = uniq_from (uniq_from result first) second.
Proof.
  revert result. induction first as [|value first IH]; intros result; simpl; [done|].
  destruct (decide (value ∈ result)); apply IH.
Qed.

Lemma string_append_assoc (s1 s2 s3 : string) :
  ((s1 ++ s2) ++ s3 = s1 ++ (s2 ++ s3))%string.
Proof.
  induction s1 as [|c s1 IH]; [done|].
  change (String c ((s1 ++ s2) ++ s3) = String c (s1 ++ (s2 ++ s3)))%string.
  by rewrite IH.
Qed.

Lemma join_space_snoc l x :
  l ≠ [] → join_space (l ++ [x]) = (join_space l ++ " " ++ x)%string.
Proof.
  induction l as [|y l IH]; [done|]. intros _.
  destruct l as [|z l]; [done|].
  change (join_space ((y :: z :: l) ++ [x]))
    with (y ++ " " ++ join_space ((z :: l) ++ [x]))%string.
  rewrite IH by done.
  change (join_space (y :: z :: l)) with (y ++ " " ++ join_space (z :: l))%string.
  by rewrite !string_append_assoc.
Qed.

Lemma filter_all (P : string → Prop) `{∀ x, Decision (P x)} (l : list string) :
  (∀ x, x ∈ l → P x) → filter P l = l.
Proof.
  induction l as [|y l IH]; intros Hall; [done|].
  rewrite filter_cons_True by (apply Hall, elem_of_cons; auto).
  rewrite IH; [done|]. intros x Hx. apply Hall, elem_of_cons. auto.
Qed.

(** X11. Read back by splitting at spaces, the role string sent for a
    removal has no duplicate, does not name the role, and names exactly the
    other non-empty roles of the user; the role name must not be empty. *)
Theorem removal_request_read_back role user :
  name role ≠ "" →
  let sent := join_space (rolesWithout role user) in
  NoDup (split_space sent) ∧
  (name role ∉ split_space sent) ∧
  (∀ r, r ≠ "" →
        (r ∈ split_space sent ↔ r ∈ split_space (roles user) ∧ r ≠ name role)).
Proof.
  intros Hname sent.
  destruct (rolesWithout_spec role user) as [Hnd Hmem].
  destruct (sent_roles_read_back role user) as [Hback _].
  subst sent. destruct (rolesWithout role user) as [|first others] eqn:Hlist.
  - simpl. split_and!.
    + apply NoDup_singleton.
    + intros Hin%list_elem_of_singleton. done.
    + intros r Hr. rewrite list_elem_of_singleton, <- Hmem, elem_of_nil. tauto.
  - rewrite Hback by done. split_and!; [done| |].
    + intros Hin. apply Hmem in Hin as [_ Hne]. done.
    + intros r _. apply Hmem.
Qed.

Lemma removal_request_read_back_witness :
  split_space (join_space (rolesWithout Sample.manager Sample.ann)) = ["system_user"] ∧
  NoDup (split_space (join_space (rolesWithout Sample.manager Sample.ann))).
Proof.
  assert (name Sample.manager ≠ "") as Hname by discriminate.
  destruct (removal_request_read_back Sample.manager Sample.ann Hname) as [Hnd _].
  split; [reflexivity|exact Hnd].
Defined.

(** X12. Read back by splitting at spaces, the role string sent for an
    addition has no duplicate, names the role exactly once, and names
    besides it exactly the roles the user had; the role name must not
    contain a space. *)
Theorem addition_request_read_back role user :
  noSpace (name role) = true →
  let sent := join_space (rolesWith role user) in
  NoDup (split_space sent) ∧
  length (filter (λ r, r = name role) (split_space sent)) = 1 ∧
  (∀ r, r ∈ split_space sent ↔ r ∈ split_space (roles user) ∨ r = name role).
Proof.
  intros Hname sent.
  destruct (rolesWith_spec role user) as (Hnd & Hmem & Hone).
  destruct (sent_roles_read_back role user) as [_ Hback].
  subst sent. rewrite Hback by done. done.
Qed.

Lemma addition_request_read_back_witness :
  split_space (join_space (rolesWith Sample.manager Sample.cyd)) = ["system_manager"] ∧
  NoDup (split_space (join_space (rolesWith Sample.manager Sample.cyd))).
Proof.
  assert (noSpace (name Sample.manager) = true) as Hname by reflexivity.
  destruct (addition_request_read_back Sample.manager Sample.cyd Hname) as [Hnd _].
  split; [reflexivity|exact Hnd].
Defined.

(** X13. For a user whose role string has no duplicate: adding the user
    when the role is already there sends the role string unchanged, adding
    otherwise sends it with a space and the role name appended, and
    removing a user who does not have the role sends it unchanged. *)
Theorem sent_roles_of_duplicate_free_user role user :
  NoDup (split_space (roles user)) →
  (name role ∈ split_space (roles user) →
   join_space (rolesWith role user) = roles user) ∧
  (name role ∉ split_space (roles user) →
   join_space (rolesWith role user) = (roles user ++ " " ++ name role)%string ∧
   join_space (rolesWithout role user) = roles user).
Proof.
  intros Hnd.
  assert (rolesWith role user =
            if decide (name role ∈ split_space (roles user))
            then split_space (roles user)
            else split_space (roles user) ++ [name role]) as Hwith.
  { unfold rolesWith, uniq. rewrite uniq_from_app.
    fold (uniq (split_space (roles user))). rewrite (uniq_NoDup _ Hnd). done. }
  split.
  - intros Hin. rewrite Hwith, decide_True by done. apply join_split_space.
  - intros Hout. split.
    + rewrite Hwith, decide_False by done.
      rewrite join_space_snoc by apply split_space_not_nil.
      by rewrite join_split_space.
    + unfold rolesWithout. rewrite filter_all.
      * rewrite (uniq_NoDup _ Hnd). apply join_split_space.
      * intros r Hr ->. done.
Qed.

Lemma sent_roles_of_duplicate_free_user_witness :
  join_space (rolesWith Sample.manager Sample.bob) = "system_user system_manager" ∧
  join_space (rolesWithout Sample.manager Sample.bob) = "system_user".
Proof.
  assert (NoDup (split_space (roles Sample.bob))) as Hnd by apply NoDup_singleton.
  destruct (sent_roles_of_duplicate_free_user Sample.manager Sample.bob Hnd)
    as [_ Hout].
  apply Hout. intros Hin%list_elem_of_singleton. discriminate Hin.
Defined.

(** ** The default title *)

Lemma spelled_out_cons c rest :
  join_space (map capitalize (split_chars (String c rest))) =
    String (toUpperCase c)
      (match rest with
       | EmptyString => ""
       | String _ _ =>
           String " " (join_space (map capitalize (split_chars rest)))
       end).
Proof. by destruct rest. Qed.

Lemma spelled_out_shape s :
  String.length (join_space (map capitalize (split_chars s))) =
    2 * String.length s - 1 ∧
  (∀ i c, String.get i s = Some c →
          String.get (2 * i) (join_space (map capitalize (split_chars s))) =
            Some (toUpperCase c)) ∧
  (∀ i, S i < String.length s →
        String.get (2 * i + 1) (join_space (map capitalize (split_chars s))) =
          Some " "%char).
Proof.
  induction s as [|c rest (IHlen & IHeven & IHodd)]; [split_and!|].
  - done.
  - intros i c Hget. by destruct i.
  - intros i Hi. simpl in Hi. lia.
  - rewrite spelled_out_cons. destruct rest as [|c' rest'].
    + split_and!; [done| |].
      * intros [|i] c0 Hget; simpl in *; [congruence|by destruct i].
      * intros i Hi. simpl in Hi. lia.
    + set (tail := join_space (map capitalize (split_chars (String c' rest')))) in *.
      split_and!.
      * cbn [String.length]. rewrite IHlen. cbn [String.length]. lia.
      * intros [|i] c0 Hget.
        -- simpl in *. congruence.
        -- replace (2 * S i) with (S (S (2 * i))) by lia.
           cbn [String.get]. apply IHeven. exact Hget.
      * intros [|i] Hi.
        -- done.
        -- replace (2 * S i + 1) with (S (S (2 * i + 1))) by lia.
           cbn [String.get]. apply IHodd. cbn [String.length] in *. lia.
Qed.

(** X14. The default title of a role with an ASCII name spells the name
    out: it is made of the characters of the name in upper case, in order,
    with one space between any two of them, and it is empty for the empty
    name. *)
Theorem defaultName_spells_out role :
  isAscii (name role) = true →
  String.length (defaultName role) = 2 * String.length (name role) - 1 ∧
  (∀ i c, String.get i (name role) = Some c →
          String.get (2 * i) (defaultName role) = Some (toUpperCase c)) ∧
  (∀ i, S i < String.length (name role) →
        String.get (2 * i + 1) (defaultName role) = Some " "%char) ∧
  titleDefaultMessage (render {| Props.role := role; Props.isDisabled := None |}
                         constructor) = defaultName role.
Proof.
  intros _. destruct (spelled_out_shape (name role)) as (Hlen & Heven & Hodd).
  split_and!; done.
Qed.

Lemma defaultName_spells_out_witness :
  defaultName Sample.manager = "S Y S T E M _ M A N A G E R" ∧
  String.length (defaultName Sample.manager) = 27.
Proof.
  assert (isAscii (name Sample.manager) = true) as Hascii by reflexivity.
  destruct (defaultName_spells_out Sample.manager Hascii) as (Hlen & _).
  split; [reflexivity|exact Hlen].
Defined.

(** ** No user is updated twice by one save *)

Lemma requestsAt_keys updatedRoles (d : Dict.t UserProfile) :
  map fst (requestsAt updatedRoles d (Dict.keys d)) = Dict.keys d.
Proof.
  assert (∀ userIds, userIds ⊆ Dict.keys d →
            map fst (requestsAt updatedRoles d userIds) = userIds) as Hgen.
  { induction userIds as [|userId userIds IH]; intros Hsub; [done|].
    change (requestsAt updatedRoles d (userId :: userIds))
      with (match Dict.get d userId with
            | Some user => [(userId, updatedRoles user)]
            | None => []
            end ++ requestsAt updatedRoles d userIds).
    destruct (Dict_get_key d userId) as [user ->].
    { apply Hsub, elem_of_cons. auto. }
    simpl. rewrite IH; [done|].
    intros k Hk. apply Hsub, elem_of_cons. auto. }
  by apply Hgen.
Qed.

Section OncePerUser.
Context {Server : Type}.
Variable settle : Server → list (string * string) → (nat → Settled) * Server.

(** X15. From a state the component can reach, one run of [handleSubmit]
    never issues two requests for the same user: the user ids of the
    requests are pairwise distinct, across both phases. *)
Theorem one_request_per_user role this (sv : Server) :
  reachable role this →
  let run := handleSubmit Server settle role this (fresh sv) in
  NoDup (map fst (calls (trace run.2))).
Proof.
  intros Hreach run.
  destruct (reachable_wf role this Hreach) as [Hadd Hremove].
  pose proof (reachable_exclusive role this Hreach) as Hex.
  destruct (handleSubmit_fresh settle role this sv)
    as (settledR & settledA & _ & _ & _ & Hcalls & _).
  cbv zeta in Hcalls. fold run in Hcalls. rewrite Hcalls, map_app.
  unfold removeRequests at 1. rewrite requestsAt_keys.
  apply NoDup_app. split_and!.
  - exact Hremove.
  - intros userId Hin Hin'.
    destruct (isNull (surfaced settledR)); [|by apply elem_of_nil in Hin'].
    unfold addRequests in Hin'. rewrite requestsAt_keys in Hin'.
    apply Dict_get_key in Hin as [? Hr]. apply Dict_get_key in Hin' as [? Ha].
    destruct (Hex userId); congruence.
  - destruct (isNull (surfaced settledR)); [|apply NoDup_nil_2].
    unfold addRequests. by rewrite requestsAt_keys.
Qed.
End OncePerUser.

Lemma one_request_per_user_witness :
  NoDup (map fst (calls (trace
    (handleSubmit unit Sample.accept Sample.manager Sample.oneOutTwoIn
       (fresh tt)).2))).
Proof.
  assert (reachable Sample.manager Sample.oneOutTwoIn) as Hreach.
  { apply reach_addUsers, reach_removeUser, reach_constructor. }
  exact (one_request_per_user Sample.accept Sample.manager Sample.oneOutTwoIn tt
           Hreach).
Defined.


(** ** The error that is shown *)

Lemma surfaced_first_failure (answer : nat → Settled) start n i error :
  start ≤ i < start + n →
  outcome (answer i) = ActionError error →
  (∀ j, start ≤ j < i → failed (answer j) = false) →
  surfaced (map answer (seq start n)) = Some (FormError (message error)).
Proof.
  revert start. induction n as [|n IH]; intros start Hi Herror Hbefore; [lia|].
  simpl. rewrite surfaced_cons.
  destruct (decide (i = start)) as [->|Hne].
  - by rewrite Herror.
  - assert (failed (answer start) = false) as Hok by (apply Hbefore; lia).
    unfold failed in Hok. destruct (outcome (answer start)); [|done].
    apply IH; [lia|done|]. intros j Hj. apply Hbefore. lia.
Qed.

Lemma surfaced_no_failure (answer : nat → Settled) start n :
  (∀ j, start ≤ j < start + n → failed (answer j) = false) →
  surfaced (map answer (seq start n)) = None.
Proof.
  revert start. induction n as [|n IH]; intros start Hok; [done|].
  simpl. rewrite surfaced_cons.
  assert (failed (answer start) = false) as Hhead by (apply Hok; lia).
  unfold failed in Hhead. destruct (outcome (answer start)); [|done].
  apply IH. intros j Hj. apply Hok. lia.
Qed.

Section ErrorShown.
Context {Server : Type}.
Variable settle : Server → list (string * string) → (nat → Settled) * Server.

(** The error and the requests of a run, from the answers of the server to
    the two batches. *)
Lemma handleSubmit_answers role this (sv : Server) :
  let run := handleSubmit Server settle role this (fresh sv) in
  let outs := removeRequests role this in
  let ins := addRequests role this in
  let sv1 := if 0 <? length outs then (settle sv outs).2 else sv in
  let outAnswers := map (settle sv outs).1 (seq 0 (length outs)) in
  let inAnswers := map (settle sv1 ins).1 (seq 0 (length ins)) in
  serverError run.1 =
    (if isNull (surfaced outAnswers) then surfaced inAnswers
     else surfaced outAnswers) ∧
  calls (trace run.2) =
    outs ++ (if isNull (surfaced outAnswers) then ins else []).
Proof.
  intros run outs ins sv1 outAnswers inAnswers.
  destruct (handleSubmit_explicit settle role this (fresh sv))
    as (_ & Hcalls & Hstate).
  fold run in Hcalls, Hstate. rewrite Hcalls, Hstate. clear Hcalls Hstate.
  cbn [serverError trace fresh server calls flat_map app].
  rewrite <- (length_removeRequests role this), <- (length_addRequests role this).
  fold outs ins. unfold settleBatch. cbn [fst snd]. fold outAnswers.
  change (errorOf (map outcome outAnswers) None) with (surfaced outAnswers).
  destruct (0 <? length outs) eqn:HgoR.
  - fold sv1. fold inAnswers.
    destruct (0 <? length ins) eqn:HgoA; simpl.
    + destruct (isNull (surfaced outAnswers)) eqn:Hnull; [|done].
      destruct (surfaced outAnswers); [done|].
      by change (errorOf (map outcome inAnswers) None) with (surfaced inAnswers).
    + apply length_zero_nil in HgoA. subst inAnswers. rewrite HgoA. simpl.
      rewrite app_nil_r.
      destruct (surfaced outAnswers); simpl; by rewrite ?app_nil_r.
  - apply length_zero_nil in HgoR as HnoR. subst outAnswers. rewrite HnoR.
    cbn [length seq map]. change (surfaced []) with (@None JSXElement).
    cbn [isNull]. rewrite andb_true_r. fold sv1. fold inAnswers.
    destruct (0 <? length ins) eqn:HgoA; simpl.
    + by change (errorOf (map outcome inAnswers) None) with (surfaced inAnswers).
    + apply length_zero_nil in HgoA. subst inAnswers. by rewrite HgoA.
Qed.

(** C8 (amended). The error on display after a run is the error of the
    first failing call in the order the calls were issued, whatever the
    order in which they complete. When the server's answer to the [i]-th
    removal request is an error and its answers to the removal requests
    before it are not, the message of that error is shown and only the
    removal requests were issued. When no removal request fails, the
    addition requests are issued after them, and the message shown is that
    of the first addition request, in order, whose answer is an error, or
    none at all when there is no such request. Nothing else is kept of the
    other answers. *)
Theorem first_issued_error_shown role this (sv : Server) :
  let run := handleSubmit Server settle role this (fresh sv) in
  let outs := removeRequests role this in
  let ins := addRequests role this in
  let outAnswer := (settle sv outs).1 in
  let sv1 := if 0 <? length outs then (settle sv outs).2 else sv in
  let inAnswer := (settle sv1 ins).1 in
  (∀ i error,
     firstFailureAt outAnswer (length outs) i error →
     serverError run.1 = Some (FormError (message error)) ∧
     calls (trace run.2) = outs) ∧
  (noFailure outAnswer (length outs) →
   calls (trace run.2) = outs ++ ins ∧
   (∀ i error,
      firstFailureAt inAnswer (length ins) i error →
      serverError run.1 = Some (FormError (message error))) ∧
   (noFailure inAnswer (length ins) → serverError run.1 = None)).
Proof.
  intros run outs ins outAnswer sv1 inAnswer.
  destruct (handleSubmit_answers role this sv) as [Herror Hcalls].
  fold run outs ins outAnswer sv1 inAnswer in Herror, Hcalls.
  rewrite Herror, Hcalls. clear Herror Hcalls. split.
  - intros i error (Hi & Hanswer & Hbefore).
    rewrite (surfaced_first_failure outAnswer 0 (length outs) i error);
      [|lia|done|intros j Hj; apply Hbefore; lia].
    simpl. by rewrite app_nil_r.
  - intros Hok.
    rewrite (surfaced_no_failure outAnswer 0 (length outs));
      [|intros j Hj; apply Hok; lia].
    simpl. split_and!; [done| |].
    + intros i error (Hi & Hanswer & Hbefore).
      apply (surfaced_first_failure inAnswer 0 (length ins) i error);
        [lia|done|].
      intros j Hj. apply Hbefore. lia.
    + intros Hok'. apply surfaced_no_failure.
      intros j Hj. apply Hok'. lia.
Qed.
End ErrorShown.
